(** * ecr/tag.go: the ECR tagger (Add, Remove, Get)

    A shallow embedding of [src/ecr/tag.go].  The three operations are
    sequential clients of a remote registry API and of a metrics sink, so
    they are written in a small state-and-error monad: the state carries the
    remote registry (an arbitrary implementation of the four API calls the
    code uses), the log of the remote calls issued so far, the counters of
    the metrics sink and the standard output. *)

From stdpp Require Import base option strings pretty list gmap.

Local Open Scope string_scope.
Local Open Scope list_scope.

(** ** Errors ([error], github.com/pkg/errors) *)

(** An [error] is either a leaf carrying its message ([errors.New], and every
    error built outside this file: the SDK's and the ARN parser's) or another
    error wrapped with a message ([errors.Wrap]). *)
Inductive error : Type :=
| errors_New (msg : string)
| errors_Wrap (cause : error) (msg : string).

(** [err.Error()]: pkg/errors prints the wrapping message, a colon and the
    cause. *)
Fixpoint Error (e : error) : string :=
  match e with
  | errors_New msg => msg
  | errors_Wrap cause msg => msg +:+ ": " +:+ Error cause
  end.

(** Go's [(value, err)] return of a fallible call. *)
Inductive result (A : Type) : Type :=
| Ok (a : A)
| Err (e : error).
Arguments Ok {A} a.
Arguments Err {A} e.

(** ** [aws] helpers *)

(** [aws.String(s)]: a pointer to [s]. *)
Definition aws_String (s : string) : option string := Some s.

(** [aws.StringValue(p)]: the pointed string, the empty string for nil. *)
Definition aws_StringValue (p : option string) : string :=
  default EmptyString p.

(** [aws.StringValueSlice(ps)]. *)
Definition aws_StringValueSlice (ps : list (option string)) : list string :=
  aws_StringValue <$> ps.

(** ** The request and response shapes of the SDK

    Only the fields that tag.go writes or reads are kept.  A [*string] field
    is an [option string]; a slice is a list.  A pointer to a struct inside
    an output ([*ecr.Image], [*ecr.ImageIdentifier], [*ecr.ImageDetail]) is
    the struct itself: the SDK builds its outputs without nil in those
    places, and tag.go dereferences them without a test. *)

Module ImageIdentifier.
Record t : Type := { ImageDigest : option string; ImageTag : option string }.
End ImageIdentifier.

Module BatchGetImageInput.
Record t : Type := {
  ImageIds : list ImageIdentifier.t;
  RegistryId : option string;
  RepositoryName : option string }.
End BatchGetImageInput.

Module Image.
Record t : Type := {
  ImageId : ImageIdentifier.t;
  ImageManifest : option string }.
End Image.

Module BatchGetImageOutput.
Record t : Type := { Images : list Image.t }.
End BatchGetImageOutput.

Module PutImageInput.
Record t : Type := {
  ImageManifest : option string;
  ImageTag : option string;
  RegistryId : option string;
  RepositoryName : option string }.
End PutImageInput.

Module BatchDeleteImageInput.
Record t : Type := {
  ImageIds : list ImageIdentifier.t;
  RegistryId : option string;
  RepositoryName : option string }.
End BatchDeleteImageInput.

Module DescribeImagesInput.
Record t : Type := {
  ImageIds : list ImageIdentifier.t;
  RegistryId : option string;
  RepositoryName : option string }.
End DescribeImagesInput.

Module ImageDetail.
Record t : Type := { ImageTags : list (option string) }.
End ImageDetail.

Module DescribeImagesOutput.
Record t : Type := { ImageDetails : list ImageDetail.t }.
End DescribeImagesOutput.

(** [ecr.New(sess, aws.NewConfig().WithRegion(region))]: the client is bound
    to a region; the session is the tagger's and never changes. *)
Record Client : Type := { Region : string }.

Definition ecr_New (region : string) : Client := {| Region := region |}.

(** ** The remote registry

    The four calls of the ECR API that tag.go issues, over an arbitrary
    registry state [W].  Each call answers with an output or an error and
    leaves the registry in a new state.  The outputs of PutImage and
    BatchDeleteImage are discarded by the code and carry nothing here. *)
Class ECRAPI (W : Type) : Type := {
  BatchGetImage :
    Client → BatchGetImageInput.t → W → result BatchGetImageOutput.t * W;
  PutImage :
    Client → PutImageInput.t → W → result unit * W;
  BatchDeleteImage :
    Client → BatchDeleteImageInput.t → W → result unit * W;
  DescribeImages :
    Client → DescribeImagesInput.t → W → result DescribeImagesOutput.t * W }.

(** One remote call as it was issued: the client, the request and the
    answer received. *)
Inductive Event : Type :=
| EvBatchGetImage (c : Client) (req : BatchGetImageInput.t)
    (res : result BatchGetImageOutput.t)
| EvPutImage (c : Client) (req : PutImageInput.t) (res : result unit)
| EvBatchDeleteImage (c : Client) (req : BatchDeleteImageInput.t)
    (res : result unit)
| EvDescribeImages (c : Client) (req : DescribeImagesInput.t)
    (res : result DescribeImagesOutput.t).

Definition is_Err {A} (r : result A) : bool :=
  match r with Ok _ => false | Err _ => true end.

(** The call was answered with an error. *)
Definition failed (ev : Event) : bool :=
  match ev with
  | EvBatchGetImage _ _ r => is_Err r
  | EvPutImage _ _ r => is_Err r
  | EvBatchDeleteImage _ _ r => is_Err r
  | EvDescribeImages _ _ r => is_Err r
  end.

(** The call asks the registry to change (PutImage, BatchDeleteImage). *)
Definition mutating (ev : Event) : bool :=
  match ev with
  | EvPutImage _ _ _ | EvBatchDeleteImage _ _ _ => true
  | EvBatchGetImage _ _ _ | EvDescribeImages _ _ _ => false
  end.

(** The call changed the registry: a mutating call that was answered
    without error. *)
Definition applied (ev : Event) : bool := mutating ev && negb (failed ev).

(** ** The metrics sink ([stats.Stats]) *)

(** [stats.IncCount(name)] on a table of named counters. *)
Definition IncCount_table (name : string) (m : gmap string nat) : gmap string nat :=
  <[name := S (default 0 (m !! name))]> m.

(** ** How a call of the tagger ends *)

(** A Go function returns its value with a nil error ([Return]), returns a
    non-nil error ([Fail]), or panics ([Panic], with the runtime's message). *)
Inductive outcome (A : Type) : Type :=
| Return (a : A)
| Fail (e : error)
| Panic (msg : string).
Arguments Return {A} a.
Arguments Fail {A} e.
Arguments Panic {A} msg.

(** [fmt.Sprintf("%s", ss)] of a slice of strings: the elements between
    brackets, separated by spaces. *)
Definition fmt_strings (ss : list string) : string :=
  "[" +:+ String.concat " " ss +:+ "]".

Definition newline : string := String (Ascii.ascii_of_nat 10) EmptyString.

(** [slice[i]] with Go's bounds check. *)
Definition index_panic_msg (i len : nat) : string :=
  "runtime error: index out of range [" +:+ pretty i +:+ "] with length "
    +:+ pretty len.

Section Tagger.

Context {W : Type} {api : ECRAPI W}.

(** [NameAccountRegionFromARN] belongs to the package but not to tag.go: it
    is a parameter of the development.  It answers with the triple
    (repoName, accountID, region) or with an error. *)
Variable NameAccountRegionFromARN : string → result (string * string * string).

(** The world a call runs in. *)
Record State : Type := {
  remote : W;                 (* the registry behind the API *)
  calls : list Event;         (* remote calls issued so far, oldest first *)
  stats : gmap string nat;    (* t.stats *)
  stdout : list string }.     (* what fmt.Printf wrote, oldest first *)

Definition M (A : Type) : Type := State → outcome A * State.

#[export] Instance M_ret : MRet M := λ A a s, (Return a, s).

#[export] Instance M_bind : MBind M := λ A B f m s,
  match m s with
  | (Return a, s') => f a s'
  | (Fail e, s') => (Fail e, s')
  | (Panic msg, s') => (Panic msg, s')
  end.

(** [return err] with a non-nil error. *)
Definition throw {A} (e : error) : M A := λ s, (Fail e, s).

Definition panic {A} (msg : string) : M A := λ s, (Panic msg, s).

(** [for _, x := range xs { body }]; a [return] or a panic in the body
    leaves the loop. *)
Fixpoint range {A} (xs : list A) (body : A → M unit) : M unit :=
  match xs with
  | [] => mret tt
  | x :: xs' => body x ;; range xs' body
  end.

(** [xs[i]]. *)
Definition index {A} (xs : list A) (i : nat) : M A :=
  match xs !! i with
  | Some x => mret x
  | None => panic (index_panic_msg i (length xs))
  end.

Definition log_call (ev : Event) (w : W) (s : State) : State :=
  {| remote := w; calls := calls s ++ [ev]; stats := stats s; stdout := stdout s |}.

(** The four methods of the client.  The answer comes back as a value, as
    Go's [(out, err)] does; the caller tests it. *)
Definition ecrClient_BatchGetImage (c : Client) (req : BatchGetImageInput.t)
  : M (result BatchGetImageOutput.t) := λ s,
  let '(r, w) := BatchGetImage c req (remote s) in
  (Return r, log_call (EvBatchGetImage c req r) w s).

Definition ecrClient_PutImage (c : Client) (req : PutImageInput.t)
  : M (result unit) := λ s,
  let '(r, w) := PutImage c req (remote s) in
  (Return r, log_call (EvPutImage c req r) w s).

Definition ecrClient_BatchDeleteImage (c : Client) (req : BatchDeleteImageInput.t)
  : M (result unit) := λ s,
  let '(r, w) := BatchDeleteImage c req (remote s) in
  (Return r, log_call (EvBatchDeleteImage c req r) w s).

Definition ecrClient_DescribeImages (c : Client) (req : DescribeImagesInput.t)
  : M (result DescribeImagesOutput.t) := λ s,
  let '(r, w) := DescribeImages c req (remote s) in
  (Return r, log_call (EvDescribeImages c req r) w s).

(** [t.stats.IncCount(name)]. *)
Definition IncCount (name : string) : M unit := λ s,
  (Return tt,
   {| remote := remote s; calls := calls s;
      stats := IncCount_table name (stats s); stdout := stdout s |}).

(** [fmt.Printf] of an already formatted line. *)
Definition Printf (line : string) : M unit := λ s,
  (Return tt,
   {| remote := remote s; calls := calls s; stats := stats s;
      stdout := stdout s ++ [line] |}).

(** *** Add (tag.go, lines 40-84) *)

Definition Add_getReq (version accountID repoName : string) : BatchGetImageInput.t :=
  {| BatchGetImageInput.ImageIds :=
       [ {| ImageIdentifier.ImageDigest := None;
            ImageIdentifier.ImageTag := aws_String version |} ];
     BatchGetImageInput.RegistryId := aws_String accountID;
     BatchGetImageInput.RepositoryName := aws_String repoName |}.

Definition Add_putReq (tag accountID repoName : string) (img : Image.t) : PutImageInput.t :=
  {| PutImageInput.ImageManifest := Image.ImageManifest img;
     PutImageInput.ImageTag := aws_String tag;
     PutImageInput.RegistryId := aws_String accountID;
     PutImageInput.RepositoryName := aws_String repoName |}.

(** The body of the loop over [getRes.Images] (lines 66-81). *)
Definition Add_image (ecrClient : Client) (repoName accountID tag : string)
    (img : Image.t) : M unit :=
  r ← ecrClient_PutImage ecrClient (Add_putReq tag accountID repoName img);
  match r with
  | Err err =>
      IncCount ("ecr.putimage." +:+ repoName +:+ ".failure") ;;
      throw (errors_Wrap err
               ("failed to add tag " +:+ tag +:+ " to image manifest "
                  +:+ aws_StringValue (Image.ImageManifest img)))
  | Ok _ => mret tt
  end.

(** The body of the loop over [tags] (lines 48-82). *)
Definition Add_tag (ecrClient : Client) (repoName accountID version : string)
    (tags : list string) (tag : string) : M unit :=
  Printf ("Tags are " +:+ fmt_strings tags +:+ " " +:+ newline) ;;
  r ← ecrClient_BatchGetImage ecrClient (Add_getReq version accountID repoName);
  match r with
  | Err err =>
      IncCount ("ecr.batchget." +:+ repoName +:+ ".failure") ;;
      throw (errors_Wrap err ("failed to get images of tag " +:+ tag))
  | Ok getRes =>
      range (BatchGetImageOutput.Images getRes)
            (Add_image ecrClient repoName accountID tag)
  end.

Definition Add (ecrARN version : string) (tags : list string) : M unit :=
  match NameAccountRegionFromARN ecrARN with
  | Err err => throw (errors_Wrap err "failed to read ECR repository ARN")
  | Ok (repoName, accountID, region) =>
      let ecrClient := ecr_New region in
      range tags (Add_tag ecrClient repoName accountID version tags)
  end.

(** *** Remove (tag.go, lines 86-134) *)

Definition Remove_getReq (tag accountID repoName : string) : BatchGetImageInput.t :=
  {| BatchGetImageInput.ImageIds :=
       [ {| ImageIdentifier.ImageDigest := None;
            ImageIdentifier.ImageTag := aws_String tag |} ];
     BatchGetImageInput.RegistryId := aws_String accountID;
     BatchGetImageInput.RepositoryName := aws_String repoName |}.

Definition Remove_delReq (tag accountID repoName : string) (img : Image.t)
  : BatchDeleteImageInput.t :=
  {| BatchDeleteImageInput.ImageIds :=
       [ {| ImageIdentifier.ImageDigest :=
              ImageIdentifier.ImageDigest (Image.ImageId img);
            ImageIdentifier.ImageTag := aws_String tag |} ];
     BatchDeleteImageInput.RegistryId := aws_String accountID;
     BatchDeleteImageInput.RepositoryName := aws_String repoName |}.

(** The body of the loop over [getRes.Images] (lines 111-131). *)
Definition Remove_image (ecrClient : Client) (repoName accountID tag : string)
    (img : Image.t) : M unit :=
  r ← ecrClient_BatchDeleteImage ecrClient (Remove_delReq tag accountID repoName img);
  match r with
  | Err err =>
      IncCount ("ecr.batchdelete." +:+ repoName +:+ ".failure") ;;
      throw (errors_Wrap err
               ("failed to perform batch delete image by tag " +:+ tag
                  +:+ " and digest "
                  +:+ aws_StringValue (ImageIdentifier.ImageDigest (Image.ImageId img))))
  | Ok _ => mret tt
  end.

(** The body of the loop over [tags] (lines 94-132). *)
Definition Remove_tag (ecrClient : Client) (repoName accountID : string)
    (tag : string) : M unit :=
  r ← ecrClient_BatchGetImage ecrClient (Remove_getReq tag accountID repoName);
  match r with
  | Err err =>
      IncCount ("ecr.batchget." +:+ repoName +:+ ".failure") ;;
      throw (errors_Wrap err ("failed to get images of tag " +:+ tag))
  | Ok getRes =>
      range (BatchGetImageOutput.Images getRes)
            (Remove_image ecrClient repoName accountID tag)
  end.

Definition Remove (ecrARN : string) (tags : list string) : M unit :=
  match NameAccountRegionFromARN ecrARN with
  | Err err => throw (errors_Wrap err "failed to read ECR repository ARN")
  | Ok (repoName, accountID, region) =>
      let ecrClient := ecr_New region in
      range tags (Remove_tag ecrClient repoName accountID)
  end.

(** *** Get (tag.go, lines 136-166) *)

Definition Get_getReq (version accountID repoName : string) : DescribeImagesInput.t :=
  {| DescribeImagesInput.ImageIds :=
       [ {| ImageIdentifier.ImageDigest := None;
            ImageIdentifier.ImageTag := aws_String version |} ];
     DescribeImagesInput.RegistryId := aws_String accountID;
     DescribeImagesInput.RepositoryName := aws_String repoName |}.

Definition Get (ecrARN version : string) : M (list string) :=
  match NameAccountRegionFromARN ecrARN with
  | Err err => throw (errors_Wrap err "failed to read ECR repository ARN")
  | Ok (repoName, accountID, region) =>
      let ecrClient := ecr_New region in
      r ← ecrClient_DescribeImages ecrClient (Get_getReq version accountID repoName);
      match r with
      | Err err =>
          IncCount ("ecr.descimg." +:+ repoName +:+ ".failure") ;;
          throw (errors_Wrap err ("failed to get images of tag " +:+ version))
      | Ok getRes =>
          if bool_decide (1 < length (DescribeImagesOutput.ImageDetails getRes))
          then throw (errors_New
                 "More than one image with version tag was found ... bad state!")
          else
            d ← index (DescribeImagesOutput.ImageDetails getRes) 0;
            mret (aws_StringValueSlice (ImageDetail.ImageTags d))
      end
  end.

End Tagger.

(** ** The shape of a run, read off the log of remote calls *)

(** The calls issued between two states of the same run. *)
Definition issued {W} (s s' : @State W) : list Event :=
  drop (length (calls s)) (calls s').

(** A run from [s] ended in [r]: either it returned, its calls [seg] satisfy
    [Done] and no counter moved; or it returned the error [err], its calls
    satisfy [Aborted] and the one counter [counter] was incremented.  It
    did not panic. *)
Definition ends_as {W A} (Done : list Event → Prop)
    (Aborted : list Event → error → string → Prop)
    (s : @State W) (r : outcome A * @State W) : Prop :=
  match r.1 with
  | Return _ =>
      ∃ seg, Done seg ∧ calls r.2 = calls s ++ seg ∧ stats r.2 = stats s
  | Fail err =>
      ∃ seg counter, Aborted seg err counter ∧ calls r.2 = calls s ++ seg
        ∧ stats r.2 = IncCount_table counter (stats s)
  | Panic _ => False
  end.

(** A loop that completed: one segment of calls per element, in order. *)
Definition all_done {A} (Done : A → list Event → Prop) (xs : list A)
    (new : list Event) : Prop :=
  ∃ segs, Forall2 Done xs segs ∧ new = concat segs.

(** A loop that was left at the element [x]: the elements before it
    completed, [x] aborted, the elements after it were not reached. *)
Definition aborted_at {A} (Done : A → list Event → Prop)
    (Aborted : A → list Event → error → string → Prop) (xs : list A)
    (new : list Event) (err : error) (counter : string) : Prop :=
  ∃ pre x post segs seg,
    xs = pre ++ x :: post ∧ Forall2 Done pre segs
    ∧ Aborted x seg err counter ∧ new = concat segs ++ seg.

(** A successful PutImage of [tag] on the manifest of [img]. *)
Definition put_ok (c : Client) (repoName accountID tag : string) (img : Image.t) : Event :=
  EvPutImage c (Add_putReq tag accountID repoName img) (Ok tt).

(** One completed iteration of Add's loop for [tag]: the lookup keyed by
    [version] answered [getRes], then one successful put per image of
    [getRes], in order. *)
Definition Add_done (c : Client) (repoName accountID version tag : string)
    (seg : list Event) : Prop :=
  ∃ getRes,
    seg = EvBatchGetImage c (Add_getReq version accountID repoName) (Ok getRes)
            :: (put_ok c repoName accountID tag <$> BatchGetImageOutput.Images getRes).

(** The iteration of Add's loop for [tag] that returned an error: the lookup
    failed, or the put of one image failed after the puts of the images
    before it. *)
Inductive Add_aborted (c : Client) (repoName accountID version tag : string)
  : list Event → error → string → Prop :=
| Add_aborted_lookup e :
    Add_aborted c repoName accountID version tag
      [EvBatchGetImage c (Add_getReq version accountID repoName) (Err e)]
      (errors_Wrap e ("failed to get images of tag " +:+ tag))
      ("ecr.batchget." +:+ repoName +:+ ".failure")
| Add_aborted_put getRes before img after e :
    BatchGetImageOutput.Images getRes = before ++ img :: after →
    Add_aborted c repoName accountID version tag
      (EvBatchGetImage c (Add_getReq version accountID repoName) (Ok getRes)
         :: (put_ok c repoName accountID tag <$> before)
         ++ [EvPutImage c (Add_putReq tag accountID repoName img) (Err e)])
      (errors_Wrap e
         ("failed to add tag " +:+ tag +:+ " to image manifest "
            +:+ aws_StringValue (Image.ImageManifest img)))
      ("ecr.putimage." +:+ repoName +:+ ".failure").

(** A successful BatchDeleteImage of the pair ([tag], digest of [img]). *)
Definition delete_ok (c : Client) (repoName accountID tag : string) (img : Image.t) : Event :=
  EvBatchDeleteImage c (Remove_delReq tag accountID repoName img) (Ok tt).

(** One completed iteration of Remove's loop for [tag]. *)
Definition Remove_done (c : Client) (repoName accountID tag : string)
    (seg : list Event) : Prop :=
  ∃ getRes,
    seg = EvBatchGetImage c (Remove_getReq tag accountID repoName) (Ok getRes)
            :: (delete_ok c repoName accountID tag <$> BatchGetImageOutput.Images getRes).

(** The iteration of Remove's loop for [tag] that returned an error. *)
Inductive Remove_aborted (c : Client) (repoName accountID tag : string)
  : list Event → error → string → Prop :=
| Remove_aborted_lookup e :
    Remove_aborted c repoName accountID tag
      [EvBatchGetImage c (Remove_getReq tag accountID repoName) (Err e)]
      (errors_Wrap e ("failed to get images of tag " +:+ tag))
      ("ecr.batchget." +:+ repoName +:+ ".failure")
| Remove_aborted_delete getRes before img after e :
    BatchGetImageOutput.Images getRes = before ++ img :: after →
    Remove_aborted c repoName accountID tag
      (EvBatchGetImage c (Remove_getReq tag accountID repoName) (Ok getRes)
         :: (delete_ok c repoName accountID tag <$> before)
         ++ [EvBatchDeleteImage c (Remove_delReq tag accountID repoName img) (Err e)])
      (errors_Wrap e
         ("failed to perform batch delete image by tag " +:+ tag
            +:+ " and digest "
            +:+ aws_StringValue (ImageIdentifier.ImageDigest (Image.ImageId img))))
      ("ecr.batchdelete." +:+ repoName +:+ ".failure").

(** The tag a mutating request names. *)
Definition named_tag (ev : Event) : option string :=
  match ev with
  | EvPutImage _ req _ => PutImageInput.ImageTag req
  | EvBatchDeleteImage _ req _ =>
      head (BatchDeleteImageInput.ImageIds req) ≫= ImageIdentifier.ImageTag
  | EvBatchGetImage _ _ _ | EvDescribeImages _ _ _ => None
  end.

(** The tags whose bindings a log changed: those named by the mutating
    calls that were answered without error, oldest first. *)
Definition touched (log : list Event) : list string :=
  omap named_tag (filter (λ ev, applied ev = true) log).

Definition is_lookup (ev : Event) : bool :=
  match ev with EvBatchGetImage _ _ _ => true | _ => false end.

(** Every lookup is the request [req] sent through the client [c]. *)
Definition lookup_is (c : Client) (req : BatchGetImageInput.t) (ev : Event) : Prop :=
  match ev with
  | EvBatchGetImage c' req' _ => c' = c ∧ req' = req
  | _ => True
  end.

(** The number of lookups in a log. *)
Definition lookups (log : list Event) : nat :=
  length (filter (λ ev, is_lookup ev = true) log).

Definition is_delete (ev : Event) : bool :=
  match ev with EvBatchDeleteImage _ _ _ => true | _ => false end.

(** ** A scripted registry and a sample parser, for closed instances *)

(** What a scripted registry answers next, one entry per expected call. *)
Inductive Canned : Type :=
| CannedBatchGetImage (r : result BatchGetImageOutput.t)
| CannedPutImage (r : result unit)
| CannedBatchDeleteImage (r : result unit)
| CannedDescribeImages (r : result DescribeImagesOutput.t).

Definition unexpected_call : error := errors_New "scripted registry: unexpected call".

(** A registry that replays a script: each call consumes the next entry when
    it is of the call's kind, and is refused otherwise. *)
#[export] Instance scripted : ECRAPI (list Canned) := {|
  BatchGetImage _ _ w :=
    match w with
    | CannedBatchGetImage r :: w' => (r, w')
    | _ => (Err unexpected_call, w)
    end;
  PutImage _ _ w :=
    match w with
    | CannedPutImage r :: w' => (r, w')
    | _ => (Err unexpected_call, w)
    end;
  BatchDeleteImage _ _ w :=
    match w with
    | CannedBatchDeleteImage r :: w' => (r, w')
    | _ => (Err unexpected_call, w)
    end;
  DescribeImages _ _ w :=
    match w with
    | CannedDescribeImages r :: w' => (r, w')
    | _ => (Err unexpected_call, w)
    end |}.

Definition sample_ARN : string := "arn:aws:ecr:us-east-1:123456789012:repository/app".

Definition sample_parse_error : error := errors_New "malformed ECR ARN".

(** Modelled from the spec: NameAccountRegionFromARN is not among the sources.
    The spec says it yields the (repository name, account ID, region) triple
    encoded in a well-formed reference and an error on a malformed one; this
    stand-in knows one well-formed reference and refuses every other string.
    It is used for closed instances only: every theorem below holds for an
    arbitrary parser. *)
Definition sample_parser (arn : string) : result (string * string * string) :=
  if bool_decide (arn = sample_ARN)
  then Ok ("app", "123456789012", "us-east-1")
  else Err sample_parse_error.

(** A fresh world over a script. *)
Definition fresh (script : list Canned) : State :=
  {| remote := script; calls := []; stats := ∅; stdout := [] |}.

Definition image (digest manifest : string) : Image.t :=
  {| Image.ImageId :=
       {| ImageIdentifier.ImageDigest := Some digest;
          ImageIdentifier.ImageTag := None |};
     Image.ImageManifest := Some manifest |}.

Definition found (imgs : list Image.t) : Canned :=
  CannedBatchGetImage (Ok {| BatchGetImageOutput.Images := imgs |}).

Definition throttled : error := errors_New "ThrottlingException: Rate exceeded".

Definition describing (ds : list ImageDetail.t) : Canned :=
  CannedDescribeImages (Ok {| DescribeImagesOutput.ImageDetails := ds |}).

Definition detail (tags : list string) : ImageDetail.t :=
  {| ImageDetail.ImageTags := Some <$> tags |}.

(** Remove of three tags: the second tag is on two images and the delete of
    its second binding is refused. *)
Definition Remove_second_delete_fails : list Canned :=
  [ found [image "d0" "m0"]; CannedBatchDeleteImage (Ok ());
    found [image "d1" "m1"; image "d2" "m2"]; CannedBatchDeleteImage (Ok ());
    CannedBatchDeleteImage (Err throttled) ].

(** Add of three tags: the lookup finds two images and, for the second tag,
    the put on the second image is refused. *)
Definition Add_second_put_fails : list Canned :=
  [ found [image "d1" "m1"; image "d2" "m2"];
    CannedPutImage (Ok ()); CannedPutImage (Ok ());
    found [image "d1" "m1"; image "d2" "m2"];
    CannedPutImage (Ok ()); CannedPutImage (Err throttled) ].

(** Add of a list with a repeated tag; the lookup of the second iteration
    finds no image. *)
Definition Add_all_answered : list Canned :=
  [ found [image "d1" "m1"]; CannedPutImage (Ok ());
    found [];
    found [image "d1" "m1"]; CannedPutImage (Ok ()) ].

(** The first lookup is refused. *)
Definition lookup_refused : list Canned :=
  [ CannedBatchGetImage (Err throttled) ].

(** Add of two tags: the lookup of the second iteration is refused. *)
Definition Add_second_lookup_fails : list Canned :=
  [ found [image "d1" "m1"]; CannedPutImage (Ok ());
    CannedBatchGetImage (Err throttled) ].

(** Remove of two tags, the first one on two images. *)
Definition Remove_all_answered : list Canned :=
  [ found [image "d1" "m1"; image "d2" "m2"];
    CannedBatchDeleteImage (Ok ()); CannedBatchDeleteImage (Ok ());
    found [image "d3" "m3"]; CannedBatchDeleteImage (Ok ()) ].


(** ** Further readings of a log *)

Definition is_put (ev : Event) : bool :=
  match ev with EvPutImage _ _ _ => true | _ => false end.

(** The request went through the client [c] and names the registry
    [accountID] and the repository [repoName]. *)
Definition addressed_to (c : Client) (accountID repoName : string) (ev : Event) : Prop :=
  match ev with
  | EvBatchGetImage c' req _ =>
      c' = c ∧ BatchGetImageInput.RegistryId req = Some accountID
      ∧ BatchGetImageInput.RepositoryName req = Some repoName
  | EvPutImage c' req _ =>
      c' = c ∧ PutImageInput.RegistryId req = Some accountID
      ∧ PutImageInput.RepositoryName req = Some repoName
  | EvBatchDeleteImage c' req _ =>
      c' = c ∧ BatchDeleteImageInput.RegistryId req = Some accountID
      ∧ BatchDeleteImageInput.RepositoryName req = Some repoName
  | EvDescribeImages c' req _ =>
      c' = c ∧ DescribeImagesInput.RegistryId req = Some accountID
      ∧ DescribeImagesInput.RepositoryName req = Some repoName
  end.

(** A mutating call is of the kind [kind] and names one of [tags]. *)
Definition mutates_only (kind : Event → bool) (tags : list string) (ev : Event) : Prop :=
  mutating ev = true → kind ev = true ∧ ∃ tag, tag ∈ tags ∧ named_tag ev = Some tag.

(** The number of images found by an answered lookup satisfies [P]. *)
Definition lookup_finds (P : nat → Prop) (ev : Event) : Prop :=
  match ev with
  | EvBatchGetImage _ _ (Ok getRes) => P (length (BatchGetImageOutput.Images getRes))
  | _ => True
  end.

(** The line that Add prints at each iteration. *)
Definition Add_line (tags : list string) : string :=
  "Tags are " +:+ fmt_strings tags +:+ " " +:+ newline.

(** From [s] to [s'] the log grew, and [line] was printed once per lookup
    issued. *)
Definition prints {W} (line : string) (s s' : @State W) : Prop :=
  ∃ new, calls s' = calls s ++ new
    ∧ stdout s' = stdout s ++ replicate (lookups new) line.

(** Two states agree on everything but the standard output. *)
Definition agree {W} (s1 s2 : @State W) : Prop :=
  remote s1 = remote s2 ∧ calls s1 = calls s2 ∧ stats s1 = stats s2.

(** Two runs end alike, and in states that agree. *)
Definition agree_run {W A} (r1 r2 : outcome A * @State W) : Prop :=
  r1.1 = r2.1 ∧ agree r1.2 r2.2.

(** A registry that answers the version with one image carrying a nil tag. *)
Definition one_image_nil_tag : list Canned :=
  [ describing [ {| ImageDetail.ImageTags := [Some "v1"; None; Some "env"] |} ] ].

(** Add of three tags on a registry where the version is on one image; the
    put of the third tag is refused. *)
Definition Add_third_put_fails : list Canned :=
  [ found [image "d1" "m1"]; CannedPutImage (Ok ());
    found [image "d1" "m1"]; CannedPutImage (Ok ());
    found [image "d1" "m1"]; CannedPutImage (Err throttled) ].

(** Remove of three tags: the first is on one image, the second on none,
    the delete of the third is refused. *)
Definition Remove_third_delete_fails : list Canned :=
  [ found [image "d1" "m1"]; CannedBatchDeleteImage (Ok ());
    found [];
    found [image "d1" "m1"]; CannedBatchDeleteImage (Err throttled) ].

(** Add of two tags, each lookup finding the one image of the version. *)
Definition Add_two_tags : list Canned :=
  [ found [image "d1" "m1"]; CannedPutImage (Ok ());
    found [image "d1" "m1"]; CannedPutImage (Ok ()) ].

(** Remove of two tags, each on one image. *)
Definition Remove_two_tags : list Canned :=
  [ found [image "d1" "m1"]; CannedBatchDeleteImage (Ok ());
    found [image "d2" "m2"]; CannedBatchDeleteImage (Ok ()) ].

(** * Properties of the runs *)

(** Closed goals about a computed log: some call failed; every call was
    answered. *)
Ltac some_failed :=
  vm_compute; repeat first [by apply Exists_cons_hd | apply Exists_cons_tl].

Ltac all_answered := vm_compute; repeat constructor.


Section Runs.

Context {W : Type} {api : ECRAPI W}.

Implicit Types (s : @State W) (log seg : list Event).

Lemma bind_run {A B} (m : M A) (f : A → M B) s :
  (m ≫= f) s =
  match m s with
  | (Return a, s') => f a s'
  | (Fail e, s') => (Fail e, s')
  | (Panic msg, s') => (Panic msg, s')
  end.
Proof. reflexivity. Qed.

Lemma issued_app s s' new : calls s' = calls s ++ new → issued s s' = new.
Proof. intros Hc. unfold issued. by rewrite Hc, drop_app_length. Qed.

Lemma issued_refl s : issued s s = [].
Proof. apply issued_app. by rewrite app_nil_r. Qed.

(** A loop ends as its body does: completed on every element, or left at
    the first element whose body returned an error. *)
Lemma range_ends_as {A} (body : A → M unit) Done Aborted :
  (∀ x s, ends_as (Done x) (Aborted x) s (body x s)) →
  ∀ xs s, ends_as (all_done Done xs) (aborted_at Done Aborted xs) s (range xs body s).
Proof.
  intros Hbody xs. induction xs as [|x xs IH]; intros s.
  - exists []. split; [by exists [] | by rewrite app_nil_r].
  - cbn [range]. rewrite bind_run. specialize (Hbody x s).
    destruct (body x s) as [[[]|err|msg] s1]; unfold ends_as in Hbody; cbn in Hbody.
    + destruct Hbody as (seg & Hseg & Hcalls & Hstats).
      specialize (IH s1). unfold ends_as in *.
      destruct (range xs body s1) as [[[]|err|msg] s2]; cbn in *.
      * destruct IH as (new & (segs & Hsegs & ->) & Hc & Hs).
        exists (seg ++ concat segs). split.
        { exists (seg :: segs). split; [by constructor | done]. }
        split; [by rewrite Hc, Hcalls, <-app_assoc | congruence].
      * destruct IH as (new & counter & Hab & Hc & Hs).
        destruct Hab as (pre & y & post & segs & seg' & -> & Hpre & Hy & ->).
        exists (seg ++ concat segs ++ seg'), counter. split.
        { exists (x :: pre), y, post, (seg :: segs), seg'.
          split; [done|]. split; [by constructor|]. split; [done|].
          cbn. by rewrite <-app_assoc. }
        split; [by rewrite Hc, Hcalls, <-app_assoc | congruence].
      * done.
    + destruct Hbody as (seg & counter & Hab & Hcalls & Hstats).
      exists seg, counter. split; [|done].
      exists [], x, xs, [], seg. split; [done|]. split; [constructor|]. done.
    + done.
Qed.

Lemma concat_singletons {A} (f : A → Event) (xs : list A) segs :
  Forall2 (λ x seg, seg = [f x]) xs segs → concat segs = f <$> xs.
Proof. induction 1 as [|x seg xs segs -> _ IH]; cbn; [done | by rewrite IH]. Qed.

(** *** The two loops of Add *)

Lemma Add_image_ends_as c repoName accountID tag img s :
  ends_as (λ seg, seg = [put_ok c repoName accountID tag img])
    (λ seg err counter, ∃ e,
       seg = [EvPutImage c (Add_putReq tag accountID repoName img) (Err e)]
       ∧ err = errors_Wrap e
           ("failed to add tag " +:+ tag +:+ " to image manifest "
              +:+ aws_StringValue (Image.ImageManifest img))
       ∧ counter = "ecr.putimage." +:+ repoName +:+ ".failure")
    s (Add_image c repoName accountID tag img s).
Proof.
  unfold Add_image, ends_as. rewrite bind_run. unfold ecrClient_PutImage.
  destruct (PutImage _ _ _) as [[[]|e] w]; rewrite ?bind_run; cbn; eauto 10.
Qed.

Lemma Add_tag_ends_as c repoName accountID version tags tag s :
  ends_as (Add_done c repoName accountID version tag)
    (Add_aborted c repoName accountID version tag)
    s (Add_tag c repoName accountID version tags tag s).
Proof.
  unfold Add_tag. rewrite bind_run. cbn [Printf]. rewrite bind_run.
  unfold ecrClient_BatchGetImage. cbn [remote].
  destruct (BatchGetImage _ _ _) as [[getRes|e] w].
  - match goal with |- ends_as _ _ _ (range _ ?body ?s1) =>
      pose proof (range_ends_as body _ _
        (Add_image_ends_as c repoName accountID tag)
        (BatchGetImageOutput.Images getRes) s1) as Hin
    end.
    unfold ends_as in *.
    destruct (range _ _ _) as [[[]|err|msg] s2]; cbn in *.
    + destruct Hin as (new & (segs & Hsegs & ->) & Hc & Hs).
      eexists. split; [by exists getRes|].
      rewrite (concat_singletons _ _ _ Hsegs) in Hc.
      split; [by rewrite Hc, <-app_assoc | done].
    + destruct Hin as (new & counter & Hab & Hc & Hs).
      destruct Hab as (before & img & after & segs & seg & Himgs & Hbefore
                       & (e & -> & -> & ->) & ->).
      rewrite (concat_singletons _ _ _ Hbefore) in Hc.
      eexists _, _. split; [by eapply Add_aborted_put|].
      split; [by rewrite Hc, <-app_assoc | done].
    + done.
  - unfold ends_as. rewrite bind_run. cbn. eexists _, _. split; [apply Add_aborted_lookup|]. done.
Qed.

(** *** The two loops of Remove *)

Lemma Remove_image_ends_as c repoName accountID tag img s :
  ends_as (λ seg, seg = [delete_ok c repoName accountID tag img])
    (λ seg err counter, ∃ e,
       seg = [EvBatchDeleteImage c (Remove_delReq tag accountID repoName img) (Err e)]
       ∧ err = errors_Wrap e
           ("failed to perform batch delete image by tag " +:+ tag
              +:+ " and digest "
              +:+ aws_StringValue (ImageIdentifier.ImageDigest (Image.ImageId img)))
       ∧ counter = "ecr.batchdelete." +:+ repoName +:+ ".failure")
    s (Remove_image c repoName accountID tag img s).
Proof.
  unfold Remove_image, ends_as. rewrite bind_run. unfold ecrClient_BatchDeleteImage.
  destruct (BatchDeleteImage _ _ _) as [[[]|e] w]; rewrite ?bind_run; cbn; eauto 10.
Qed.

Lemma Remove_tag_ends_as c repoName accountID tag s :
  ends_as (Remove_done c repoName accountID tag)
    (Remove_aborted c repoName accountID tag)
    s (Remove_tag c repoName accountID tag s).
Proof.
  unfold Remove_tag. rewrite bind_run.
  unfold ecrClient_BatchGetImage.
  destruct (BatchGetImage _ _ _) as [[getRes|e] w].
  - match goal with |- ends_as _ _ _ (range _ ?body ?s1) =>
      pose proof (range_ends_as body _ _
        (Remove_image_ends_as c repoName accountID tag)
        (BatchGetImageOutput.Images getRes) s1) as Hin
    end.
    unfold ends_as in *.
    destruct (range _ _ _) as [[[]|err|msg] s2]; cbn in *.
    + destruct Hin as (new & (segs & Hsegs & ->) & Hc & Hs).
      eexists. split; [by exists getRes|].
      rewrite (concat_singletons _ _ _ Hsegs) in Hc.
      split; [by rewrite Hc, <-app_assoc | done].
    + destruct Hin as (new & counter & Hab & Hc & Hs).
      destruct Hab as (before & img & after & segs & seg & Himgs & Hbefore
                       & (e & -> & -> & ->) & ->).
      rewrite (concat_singletons _ _ _ Hbefore) in Hc.
      eexists _, _. split; [by eapply Remove_aborted_delete|].
      split; [by rewrite Hc, <-app_assoc | done].
    + done.
  - unfold ends_as. rewrite bind_run. cbn. eexists _, _. split; [apply Remove_aborted_lookup|]. done.
Qed.

(** *** What the segments of a log contain *)

Lemma Add_done_ok c repoName accountID version tag seg :
  Add_done c repoName accountID version tag seg →
  Forall (λ ev, failed ev = false) seg.
Proof.
  intros [getRes ->]. constructor; [done|].
  apply Forall_fmap, Forall_true. done.
Qed.

Lemma Remove_done_ok c repoName accountID tag seg :
  Remove_done c repoName accountID tag seg →
  Forall (λ ev, failed ev = false) seg.
Proof.
  intros [getRes ->]. constructor; [done|].
  apply Forall_fmap, Forall_true. done.
Qed.

Lemma Forall2_concat_ok {A} (Done : A → list Event → Prop) (P : Event → Prop) xs segs :
  (∀ x seg, Done x seg → Forall P seg) →
  Forall2 Done xs segs → Forall P (concat segs).
Proof.
  intros HD. induction 1; cbn; [constructor|].
  apply Forall_app. eauto.
Qed.

(** An aborted iteration ends with its only failed call. *)
Lemma Add_aborted_last c repoName accountID version tag seg err counter :
  Add_aborted c repoName accountID version tag seg err counter →
  ∃ before ev, seg = before ++ [ev]
    ∧ Forall (λ ev, failed ev = false) before ∧ failed ev = true.
Proof.
  destruct 1 as [e|getRes before img after e _].
  - by exists [], (EvBatchGetImage c (Add_getReq version accountID repoName) (Err e)).
  - eexists (_ :: _), _. split; [by rewrite app_comm_cons|].
    split; [|done]. constructor; [done|]. apply Forall_fmap, Forall_true. done.
Qed.

Lemma Remove_aborted_last c repoName accountID tag seg err counter :
  Remove_aborted c repoName accountID tag seg err counter →
  ∃ before ev, seg = before ++ [ev]
    ∧ Forall (λ ev, failed ev = false) before ∧ failed ev = true.
Proof.
  destruct 1 as [e|getRes before img after e _].
  - by exists [], (EvBatchGetImage c (Remove_getReq tag accountID repoName) (Err e)).
  - eexists (_ :: _), _. split; [by rewrite app_comm_cons|].
    split; [|done]. constructor; [done|]. apply Forall_fmap, Forall_true. done.
Qed.

Lemma not_all_ok_snoc (before : list Event) ev :
  failed ev = true → ¬ Forall (λ ev, failed ev = false) (before ++ [ev]).
Proof.
  intros Hev [_ Hl]%Forall_app. inversion Hl; congruence.
Qed.

(** *** The three operations on a well-formed reference *)

Variable NameAccountRegionFromARN : string → result (string * string * string).

Lemma Add_ends_as ecrARN version tags repoName accountID region s :
  NameAccountRegionFromARN ecrARN = Ok (repoName, accountID, region) →
  ends_as
    (all_done (Add_done (ecr_New region) repoName accountID version) tags)
    (aborted_at (Add_done (ecr_New region) repoName accountID version)
       (Add_aborted (ecr_New region) repoName accountID version) tags)
    s (Add NameAccountRegionFromARN ecrARN version tags s).
Proof.
  intros Hparse. unfold Add. rewrite Hparse. cbn zeta.
  apply range_ends_as. intros tag s1. apply Add_tag_ends_as.
Qed.

Lemma Remove_ends_as ecrARN tags repoName accountID region s :
  NameAccountRegionFromARN ecrARN = Ok (repoName, accountID, region) →
  ends_as
    (all_done (Remove_done (ecr_New region) repoName accountID) tags)
    (aborted_at (Remove_done (ecr_New region) repoName accountID)
       (Remove_aborted (ecr_New region) repoName accountID) tags)
    s (Remove NameAccountRegionFromARN ecrARN tags s).
Proof.
  intros Hparse. unfold Remove. rewrite Hparse. cbn zeta.
  apply range_ends_as. intros tag s1. apply Remove_tag_ends_as.
Qed.

(** How Get ends, by the answer of DescribeImages. *)
Lemma Get_run ecrARN version repoName accountID region s :
  NameAccountRegionFromARN ecrARN = Ok (repoName, accountID, region) →
  let c := ecr_New region in
  let req := Get_getReq version accountID repoName in
  let r := DescribeImages c req (remote s) in
  let s1 := log_call (EvDescribeImages c req r.1) r.2 s in
  Get NameAccountRegionFromARN ecrARN version s =
  match r.1 with
  | Err err =>
      (Fail (errors_Wrap err ("failed to get images of tag " +:+ version)),
       {| remote := remote s1; calls := calls s1;
          stats := IncCount_table ("ecr.descimg." +:+ repoName +:+ ".failure") (stats s1);
          stdout := stdout s1 |})
  | Ok getRes =>
      match DescribeImagesOutput.ImageDetails getRes with
      | [] => (Panic (index_panic_msg 0 0), s1)
      | [d] => (Return (aws_StringValueSlice (ImageDetail.ImageTags d)), s1)
      | _ :: _ :: _ =>
          (Fail (errors_New
             "More than one image with version tag was found ... bad state!"), s1)
      end
  end.
Proof.
  intros Hparse c req r s1. unfold Get. rewrite Hparse. cbn zeta.
  rewrite bind_run. unfold ecrClient_DescribeImages. fold c req.
  subst s1. destruct r as [[getRes|err] w] eqn:Hr; subst r; rewrite Hr; cbn.
  - destruct getRes as [[|d [|d' ds]]]; reflexivity.
  - reflexivity.
Qed.

(** *** Malformed references and empty tag lists *)

(** C6: on a reference that the parser refuses with [err], each of Add,
    Remove and Get returns [err] wrapped with "failed to read ECR repository
    ARN" and leaves the whole state as it was: no remote call is logged, no
    counter moves, nothing is printed. *)
Theorem malformed_reference_aborts ecrARN version tags err s :
  NameAccountRegionFromARN ecrARN = Err err →
  Add NameAccountRegionFromARN ecrARN version tags s
    = (Fail (errors_Wrap err "failed to read ECR repository ARN"), s)
  ∧ Remove NameAccountRegionFromARN ecrARN tags s
    = (Fail (errors_Wrap err "failed to read ECR repository ARN"), s)
  ∧ Get NameAccountRegionFromARN ecrARN version s
    = (Fail (errors_Wrap err "failed to read ECR repository ARN"), s).
Proof.
  intros Hparse. unfold Add, Remove, Get. rewrite Hparse. done.
Qed.

(** C9: on a well-formed reference, Add and Remove with no tag return nil
    and leave the whole state as it was, so no remote call is issued. *)
Theorem empty_tag_list_is_noop ecrARN version repoName accountID region s :
  NameAccountRegionFromARN ecrARN = Ok (repoName, accountID, region) →
  Add NameAccountRegionFromARN ecrARN version [] s = (Return (), s)
  ∧ Remove NameAccountRegionFromARN ecrARN [] s = (Return (), s).
Proof.
  intros Hparse. unfold Add, Remove. rewrite Hparse. done.
Qed.

(** *** Get *)

(** C3: when DescribeImages answers without error and with two or more
    image details, Get returns the error "More than one image with version
    tag was found ... bad state!"; the only remote call of the run is that
    DescribeImages, so no put and no delete reaches the registry, and no
    counter moves. *)
Theorem Get_more_than_one_image ecrARN version repoName accountID region getRes w s :
  NameAccountRegionFromARN ecrARN = Ok (repoName, accountID, region) →
  DescribeImages (ecr_New region) (Get_getReq version accountID repoName) (remote s)
    = (Ok getRes, w) →
  1 < length (DescribeImagesOutput.ImageDetails getRes) →
  let ev := EvDescribeImages (ecr_New region)
              (Get_getReq version accountID repoName) (Ok getRes) in
  let s' := log_call ev w s in
  Get NameAccountRegionFromARN ecrARN version s
    = (Fail (errors_New
         "More than one image with version tag was found ... bad state!"), s')
  ∧ issued s s' = [ev]
  ∧ Forall (λ ev, mutating ev = false) (issued s s')
  ∧ stats s' = stats s.
Proof.
  intros Hparse Hdesc Hlen ev s'.
  assert (issued s s' = [ev]) as Hiss by by apply issued_app.
  split; [|rewrite Hiss; repeat split; by repeat constructor].
  rewrite (Get_run _ _ _ _ _ _ Hparse). cbn zeta. rewrite Hdesc. cbn [fst snd].
  destruct (DescribeImagesOutput.ImageDetails getRes) as [|d [|d' ds]];
    cbn in Hlen; [lia | lia | done].
Qed.

(** Get on an answer without image details: the index expression
    [getRes.ImageDetails[0]] panics. *)
Lemma Get_no_image_details ecrARN version repoName accountID region getRes w s :
  NameAccountRegionFromARN ecrARN = Ok (repoName, accountID, region) →
  DescribeImages (ecr_New region) (Get_getReq version accountID repoName) (remote s)
    = (Ok getRes, w) →
  DescribeImagesOutput.ImageDetails getRes = [] →
  (Get NameAccountRegionFromARN ecrARN version s).1
    = Panic (index_panic_msg 0 0).
Proof.
  intros Hparse Hdesc Hnil.
  rewrite (Get_run _ _ _ _ _ _ Hparse). cbn zeta. rewrite Hdesc. cbn [fst snd].
  by rewrite Hnil.
Qed.

(** *** Complete runs of Add and Remove *)

Lemma done_no_delete c repoName accountID version tag seg :
  Add_done c repoName accountID version tag seg →
  Forall (λ ev, is_delete ev = false) seg.
Proof.
  intros [getRes ->]. constructor; [done|].
  apply Forall_fmap, Forall_true. done.
Qed.

(** C4: on a well-formed reference, when no remote call of the run is
    answered with an error, Add returns nil and its log is, tag by tag in
    the order of the input list (a repeated tag is processed again), the
    lookup keyed by [version] followed by one PutImage per image found,
    carrying that image's manifest and the tag; no delete is issued.  The
    two requests are spelled field by field: the lookup names the one image
    identifier with tag [version] and no digest, the put carries the
    manifest of the image found and the tag being added.  An
    iteration whose lookup finds no image consists of the lookup alone and
    returns without error. *)
Theorem Add_in_input_order ecrARN version tags repoName accountID region s :
  NameAccountRegionFromARN ecrARN = Ok (repoName, accountID, region) →
  let c := ecr_New region in
  let r := Add NameAccountRegionFromARN ecrARN version tags s in
  Forall (λ ev, failed ev = false) (issued s r.2) →
  r.1 = Return ()
  ∧ (∃ segs, Forall2 (Add_done c repoName accountID version) tags segs
       ∧ issued s r.2 = concat segs)
  ∧ Add_getReq version accountID repoName
    = {| BatchGetImageInput.ImageIds :=
           [ {| ImageIdentifier.ImageDigest := None;
                ImageIdentifier.ImageTag := Some version |} ];
         BatchGetImageInput.RegistryId := Some accountID;
         BatchGetImageInput.RepositoryName := Some repoName |}
  ∧ (∀ tag img,
       Add_putReq tag accountID repoName img
       = {| PutImageInput.ImageManifest := Image.ImageManifest img;
            PutImageInput.ImageTag := Some tag;
            PutImageInput.RegistryId := Some accountID;
            PutImageInput.RepositoryName := Some repoName |})
  ∧ Forall (λ ev, is_delete ev = false) (issued s r.2)
  ∧ (∀ tag s0 w,
       BatchGetImage c (Add_getReq version accountID repoName) (remote s0)
         = (Ok {| BatchGetImageOutput.Images := [] |}, w) →
       let r0 := Add_tag c repoName accountID version tags tag s0 in
       r0.1 = Return ()
       ∧ issued s0 r0.2 =
           [EvBatchGetImage c (Add_getReq version accountID repoName)
              (Ok {| BatchGetImageOutput.Images := [] |})]).
Proof.
  intros Hparse c r Hok.
  pose proof (Add_ends_as ecrARN version tags _ _ _ s Hparse) as Hrun.
  fold c r in Hrun. unfold ends_as in Hrun.
  destruct r as [[[]|err|msg] s']; cbn [fst snd] in *.
  - destruct Hrun as (new & (segs & Hsegs & ->) & Hc & _).
    rewrite (issued_app _ _ _ Hc). split; [done|]. split; [eauto|].
    split; [reflexivity|]. split; [reflexivity|]. split.
    + eapply Forall2_concat_ok; [|exact Hsegs]. apply done_no_delete.
    + intros tag s0 w Hget. unfold Add_tag.
      rewrite bind_run. cbn [Printf]. rewrite bind_run.
      unfold ecrClient_BatchGetImage. cbn [remote]. rewrite Hget. cbn.
      split; [done|]. by apply issued_app.
  - destruct Hrun as (new & counter & Hab & Hc & _).
    rewrite (issued_app _ _ _ Hc) in Hok.
    destruct Hab as (pre & tag & post & segs & seg & _ & _ & Hab & ->).
    apply Add_aborted_last in Hab as (before & ev & -> & _ & Hev).
    rewrite app_assoc in Hok. by apply not_all_ok_snoc in Hok.
  - done.
Qed.

(** C5: on a well-formed reference, when no remote call of the run is
    answered with an error, Remove returns nil and its log is, tag by tag in
    the order of the input list, the lookup keyed by that tag followed by
    one BatchDeleteImage per image found, each keyed by the pair of the tag
    and that image's digest.  The two requests are spelled field by field:
    the lookup names the one image identifier with that tag and no digest,
    the delete the one identifier with that tag and the digest of the image
    found. *)
Theorem Remove_deletes_each_binding ecrARN tags repoName accountID region s :
  NameAccountRegionFromARN ecrARN = Ok (repoName, accountID, region) →
  let c := ecr_New region in
  let r := Remove NameAccountRegionFromARN ecrARN tags s in
  Forall (λ ev, failed ev = false) (issued s r.2) →
  r.1 = Return ()
  ∧ (∃ segs, Forall2 (Remove_done c repoName accountID) tags segs
       ∧ issued s r.2 = concat segs)
  ∧ (∀ tag img,
       BatchDeleteImageInput.ImageIds (Remove_delReq tag accountID repoName img)
       = [ {| ImageIdentifier.ImageDigest :=
                ImageIdentifier.ImageDigest (Image.ImageId img);
              ImageIdentifier.ImageTag := Some tag |} ])
  ∧ (∀ tag,
       Remove_getReq tag accountID repoName
       = {| BatchGetImageInput.ImageIds :=
              [ {| ImageIdentifier.ImageDigest := None;
                   ImageIdentifier.ImageTag := Some tag |} ];
            BatchGetImageInput.RegistryId := Some accountID;
            BatchGetImageInput.RepositoryName := Some repoName |})
  ∧ (∀ tag img,
       Remove_delReq tag accountID repoName img
       = {| BatchDeleteImageInput.ImageIds :=
              [ {| ImageIdentifier.ImageDigest :=
                     ImageIdentifier.ImageDigest (Image.ImageId img);
                   ImageIdentifier.ImageTag := Some tag |} ];
            BatchDeleteImageInput.RegistryId := Some accountID;
            BatchDeleteImageInput.RepositoryName := Some repoName |}).
Proof.
  intros Hparse c r Hok.
  pose proof (Remove_ends_as ecrARN tags _ _ _ s Hparse) as Hrun.
  fold c r in Hrun. unfold ends_as in Hrun.
  destruct r as [[[]|err|msg] s']; cbn [fst snd] in *.
  - destruct Hrun as (new & (segs & Hsegs & ->) & Hc & _).
    rewrite (issued_app _ _ _ Hc). split; [done|]. split; [eauto|].
    split; [reflexivity|]. split; reflexivity.
  - destruct Hrun as (new & counter & Hab & Hc & _).
    rewrite (issued_app _ _ _ Hc) in Hok.
    destruct Hab as (pre & tag & post & segs & seg & _ & _ & Hab & ->).
    apply Remove_aborted_last in Hab as (before & ev & -> & _ & Hev).
    rewrite app_assoc in Hok. by apply not_all_ok_snoc in Hok.
  - done.
Qed.

(** *** Runs with a remote failure *)

Lemma all_ok_no_failure log :
  Forall (λ ev, failed ev = false) log → ¬ Exists (λ ev, failed ev = true) log.
Proof.
  intros Hok Hex. apply Exists_exists in Hex as (ev & Hin & Hev).
  rewrite Forall_forall in Hok. specialize (Hok ev Hin). cbv beta in Hok. congruence.
Qed.

Lemma all_done_Add_ok c repoName accountID version tags new :
  all_done (Add_done c repoName accountID version) tags new →
  Forall (λ ev, failed ev = false) new.
Proof.
  intros (segs & Hsegs & ->).
  eapply Forall2_concat_ok; [|exact Hsegs]. apply Add_done_ok.
Qed.

Lemma all_done_Remove_ok c repoName accountID tags new :
  all_done (Remove_done c repoName accountID) tags new →
  Forall (λ ev, failed ev = false) new.
Proof.
  intros (segs & Hsegs & ->).
  eapply Forall2_concat_ok; [|exact Hsegs]. apply Remove_done_ok.
Qed.

(** C2, amended: on a well-formed reference, when a remote call of a run of
    Add or Remove is answered with an error, the operation returns an error
    and its log splits at some tag: the tags before it were processed
    completely, that tag's iteration stopped at its failing call (after its
    lookup and after the puts or deletes of the images that precede the
    failing one), and the log ends there, so nothing is issued for the tags
    after it and the failing call is the last call of the run. *)
Theorem partial_failure_boundary ecrARN version tags repoName accountID region s :
  NameAccountRegionFromARN ecrARN = Ok (repoName, accountID, region) →
  let c := ecr_New region in
  let ra := Add NameAccountRegionFromARN ecrARN version tags s in
  let rr := Remove NameAccountRegionFromARN ecrARN tags s in
  (Exists (λ ev, failed ev = true) (issued s ra.2) →
   ∃ err pre tag post segs seg counter before ev,
     ra.1 = Fail err
     ∧ tags = pre ++ tag :: post
     ∧ Forall2 (Add_done c repoName accountID version) pre segs
     ∧ Add_aborted c repoName accountID version tag seg err counter
     ∧ issued s ra.2 = concat segs ++ seg
     ∧ issued s ra.2 = before ++ [ev]
     ∧ Forall (λ ev, failed ev = false) before ∧ failed ev = true)
  ∧ (Exists (λ ev, failed ev = true) (issued s rr.2) →
     ∃ err pre tag post segs seg counter before ev,
       rr.1 = Fail err
       ∧ tags = pre ++ tag :: post
       ∧ Forall2 (Remove_done c repoName accountID) pre segs
       ∧ Remove_aborted c repoName accountID tag seg err counter
       ∧ issued s rr.2 = concat segs ++ seg
       ∧ issued s rr.2 = before ++ [ev]
       ∧ Forall (λ ev, failed ev = false) before ∧ failed ev = true).
Proof.
  intros Hparse c ra rr. split.
  - intros Hex.
    pose proof (Add_ends_as ecrARN version tags _ _ _ s Hparse) as Hrun.
    fold c ra in Hrun. unfold ends_as in Hrun.
    destruct ra as [[[]|err|msg] s']; cbn [fst snd] in *; [| |done].
    + destruct Hrun as (new & Hdone & Hc & _).
      rewrite (issued_app _ _ _ Hc) in Hex.
      by apply all_done_Add_ok, all_ok_no_failure in Hdone.
    + destruct Hrun as (new & counter & Hab & Hc & _).
      rewrite (issued_app _ _ _ Hc).
      destruct Hab as (pre & tag & post & segs & seg & -> & Hpre & Hab & ->).
      destruct (Add_aborted_last _ _ _ _ _ _ _ _ Hab) as (before & ev & Hseg & Hbefore & Hev).
      exists err, pre, tag, post, segs, seg, counter, (concat segs ++ before), ev.
      repeat split; try done.
      * by rewrite Hseg, app_assoc.
      * apply Forall_app. split; [|done].
        eapply Forall2_concat_ok; [|exact Hpre]. apply Add_done_ok.
  - intros Hex.
    pose proof (Remove_ends_as ecrARN tags _ _ _ s Hparse) as Hrun.
    fold c rr in Hrun. unfold ends_as in Hrun.
    destruct rr as [[[]|err|msg] s']; cbn [fst snd] in *; [| |done].
    + destruct Hrun as (new & Hdone & Hc & _).
      rewrite (issued_app _ _ _ Hc) in Hex.
      by apply all_done_Remove_ok, all_ok_no_failure in Hdone.
    + destruct Hrun as (new & counter & Hab & Hc & _).
      rewrite (issued_app _ _ _ Hc).
      destruct Hab as (pre & tag & post & segs & seg & -> & Hpre & Hab & ->).
      destruct (Remove_aborted_last _ _ _ _ _ _ _ Hab) as (before & ev & Hseg & Hbefore & Hev).
      exists err, pre, tag, post, segs, seg, counter, (concat segs ++ before), ev.
      repeat split; try done.
      * by rewrite Hseg, app_assoc.
      * apply Forall_app. split; [|done].
        eapply Forall2_concat_ok; [|exact Hpre]. apply Remove_done_ok.
Qed.

(** *** The failure counters *)

(** [IncCount] adds one to the counter it names and leaves the others. *)
Lemma IncCount_table_lookup counter (m : gmap string nat) name :
  IncCount_table counter m !! name =
  if decide (counter = name) then Some (S (default 0 (m !! counter))) else m !! name.
Proof. unfold IncCount_table. apply lookup_insert. Qed.

(** C7: on a well-formed reference, when a remote call of a run of Add,
    Remove or Get is answered with an error [e], that call is the last of
    the run and the only one that failed, exactly one counter is incremented
    (by one, the others are left alone), its name carries the remote
    operation and the repository name, and the error returned is [e] wrapped
    with a message naming the tag processed (lookup), the tag and the
    manifest (put), the tag and the digest (delete) or the version
    (describe). *)
Theorem remote_failure_counted_and_wrapped
    ecrARN version tags repoName accountID region s :
  NameAccountRegionFromARN ecrARN = Ok (repoName, accountID, region) →
  let c := ecr_New region in
  let ra := Add NameAccountRegionFromARN ecrARN version tags s in
  let rr := Remove NameAccountRegionFromARN ecrARN tags s in
  let rg := Get NameAccountRegionFromARN ecrARN version s in
  (Exists (λ ev, failed ev = true) (issued s ra.2) →
   ∃ tag e before ev msg counter,
     tag ∈ tags ∧ issued s ra.2 = before ++ [ev]
     ∧ Forall (λ ev, failed ev = false) before
     ∧ ra.1 = Fail (errors_Wrap e msg)
     ∧ stats ra.2 = IncCount_table counter (stats s)
     ∧ ((ev = EvBatchGetImage c (Add_getReq version accountID repoName) (Err e)
         ∧ counter = "ecr.batchget." +:+ repoName +:+ ".failure"
         ∧ msg = "failed to get images of tag " +:+ tag)
        ∨ (∃ img,
             ev = EvPutImage c (Add_putReq tag accountID repoName img) (Err e)
             ∧ counter = "ecr.putimage." +:+ repoName +:+ ".failure"
             ∧ msg = "failed to add tag " +:+ tag +:+ " to image manifest "
                       +:+ aws_StringValue (Image.ImageManifest img))))
  ∧ (Exists (λ ev, failed ev = true) (issued s rr.2) →
     ∃ tag e before ev msg counter,
       tag ∈ tags ∧ issued s rr.2 = before ++ [ev]
       ∧ Forall (λ ev, failed ev = false) before
       ∧ rr.1 = Fail (errors_Wrap e msg)
       ∧ stats rr.2 = IncCount_table counter (stats s)
       ∧ ((ev = EvBatchGetImage c (Remove_getReq tag accountID repoName) (Err e)
           ∧ counter = "ecr.batchget." +:+ repoName +:+ ".failure"
           ∧ msg = "failed to get images of tag " +:+ tag)
          ∨ (∃ img,
               ev = EvBatchDeleteImage c (Remove_delReq tag accountID repoName img) (Err e)
               ∧ counter = "ecr.batchdelete." +:+ repoName +:+ ".failure"
               ∧ msg = "failed to perform batch delete image by tag " +:+ tag
                         +:+ " and digest "
                         +:+ aws_StringValue
                               (ImageIdentifier.ImageDigest (Image.ImageId img)))))
  ∧ (Exists (λ ev, failed ev = true) (issued s rg.2) →
     ∃ e,
       issued s rg.2 =
         [EvDescribeImages c (Get_getReq version accountID repoName) (Err e)]
       ∧ rg.1 = Fail (errors_Wrap e ("failed to get images of tag " +:+ version))
       ∧ stats rg.2 =
           IncCount_table ("ecr.descimg." +:+ repoName +:+ ".failure") (stats s))
  ∧ (∀ counter (m : gmap string nat) name,
       IncCount_table counter m !! name =
       if decide (counter = name) then Some (S (default 0 (m !! counter)))
       else m !! name).
Proof.
  intros Hparse c ra rr rg. split; [|split; [|split]].
  - intros Hex.
    pose proof (Add_ends_as ecrARN version tags _ _ _ s Hparse) as Hrun.
    fold c ra in Hrun. unfold ends_as in Hrun.
    destruct ra as [[[]|err|msg] s']; cbn [fst snd] in *; [| |done].
    + destruct Hrun as (new & Hdone & Hc & _).
      rewrite (issued_app _ _ _ Hc) in Hex.
      by apply all_done_Add_ok, all_ok_no_failure in Hdone.
    + destruct Hrun as (new & counter & Hab & Hc & Hs).
      rewrite (issued_app _ _ _ Hc).
      destruct Hab as (pre & tag & post & segs & seg & -> & Hpre & Hab & ->).
      assert (Forall (λ ev, failed ev = false) (concat segs)) as Hsegs.
      { eapply Forall2_concat_ok; [|exact Hpre]. apply Add_done_ok. }
      assert (tag ∈ pre ++ tag :: post) as Hin by set_solver.
      destruct Hab as [e|getRes before img after e Himgs].
      * eexists tag, e, (concat segs), _, _, _.
        repeat split; [done..|]. left. done.
      * eexists tag, e,
          (concat segs ++
           EvBatchGetImage c (Add_getReq version accountID repoName) (Ok getRes)
           :: (put_ok c repoName accountID tag <$> before)), _, _, _.
        split; [done|]. split; [by rewrite <-app_assoc|]. split.
        { apply Forall_app. split; [done|]. constructor; [done|].
          apply Forall_fmap, Forall_true. done. }
        repeat split; [done..|]. right. by exists img.
  - intros Hex.
    pose proof (Remove_ends_as ecrARN tags _ _ _ s Hparse) as Hrun.
    fold c rr in Hrun. unfold ends_as in Hrun.
    destruct rr as [[[]|err|msg] s']; cbn [fst snd] in *; [| |done].
    + destruct Hrun as (new & Hdone & Hc & _).
      rewrite (issued_app _ _ _ Hc) in Hex.
      by apply all_done_Remove_ok, all_ok_no_failure in Hdone.
    + destruct Hrun as (new & counter & Hab & Hc & Hs).
      rewrite (issued_app _ _ _ Hc).
      destruct Hab as (pre & tag & post & segs & seg & -> & Hpre & Hab & ->).
      assert (Forall (λ ev, failed ev = false) (concat segs)) as Hsegs.
      { eapply Forall2_concat_ok; [|exact Hpre]. apply Remove_done_ok. }
      assert (tag ∈ pre ++ tag :: post) as Hin by set_solver.
      destruct Hab as [e|getRes before img after e Himgs].
      * eexists tag, e, (concat segs), _, _, _.
        repeat split; [done..|]. left. done.
      * eexists tag, e,
          (concat segs ++
           EvBatchGetImage c (Remove_getReq tag accountID repoName) (Ok getRes)
           :: (delete_ok c repoName accountID tag <$> before)), _, _, _.
        split; [done|]. split; [by rewrite <-app_assoc|]. split.
        { apply Forall_app. split; [done|]. constructor; [done|].
          apply Forall_fmap, Forall_true. done. }
        repeat split; [done..|]. right. by exists img.
  - intros Hex. subst rg. revert Hex.
    rewrite (Get_run _ _ _ _ _ _ Hparse). cbn zeta. fold c.
    destruct (DescribeImages c _ (remote s)) as [[getRes|e] w]; cbn [fst snd].
    + intros Hex. exfalso. revert Hex. apply all_ok_no_failure.
      destruct (DescribeImagesOutput.ImageDetails getRes) as [|d [|d' ds]];
        cbn [fst snd]; (erewrite issued_app; [|reflexivity]); by repeat constructor.
    + intros _. exists e. cbn [fst snd]. split; [by apply issued_app|done].
  - apply IncCount_table_lookup.
Qed.

(** C8: a reference that the parser refuses moves no counter in Add,
    Remove or Get; neither does the answer of DescribeImages with two or
    more image details in Get; and in each of the three operations, on any
    reference, the counters are as they were whenever no remote call of the
    run was answered with an error. *)
Theorem counters_move_only_on_remote_failure ecrARN version tags s :
  let ra := Add NameAccountRegionFromARN ecrARN version tags s in
  let rr := Remove NameAccountRegionFromARN ecrARN tags s in
  let rg := Get NameAccountRegionFromARN ecrARN version s in
  (∀ err, NameAccountRegionFromARN ecrARN = Err err →
     stats ra.2 = stats s ∧ stats rr.2 = stats s ∧ stats rg.2 = stats s)
  ∧ (∀ repoName accountID region getRes w,
       NameAccountRegionFromARN ecrARN = Ok (repoName, accountID, region) →
       DescribeImages (ecr_New region) (Get_getReq version accountID repoName)
         (remote s) = (Ok getRes, w) →
       1 < length (DescribeImagesOutput.ImageDetails getRes) →
       rg.1 = Fail (errors_New
                "More than one image with version tag was found ... bad state!")
       ∧ stats rg.2 = stats s)
  ∧ (Forall (λ ev, failed ev = false) (issued s ra.2) → stats ra.2 = stats s)
  ∧ (Forall (λ ev, failed ev = false) (issued s rr.2) → stats rr.2 = stats s)
  ∧ (Forall (λ ev, failed ev = false) (issued s rg.2) → stats rg.2 = stats s).
Proof.
  intros ra rr rg. split; [|split; [|split; [|split]]].
  - intros err Hparse. subst ra rr rg.
    unfold Add, Remove, Get. by rewrite Hparse.
  - intros repoName accountID region getRes w Hparse Hdesc Hlen. subst rg.
    rewrite (Get_run _ _ _ _ _ _ Hparse). cbn zeta. rewrite Hdesc. cbn [fst snd].
    destruct (DescribeImagesOutput.ImageDetails getRes) as [|d [|d' ds]];
      cbn in Hlen; [lia | lia | done].
  - intros Hok. destruct (NameAccountRegionFromARN ecrARN) as [[[repoName accountID] region]|err] eqn:Hparse.
    + pose proof (Add_ends_as ecrARN version tags _ _ _ s Hparse) as Hrun.
      fold ra in Hrun. unfold ends_as in Hrun.
      destruct ra as [[[]|err|msg] s']; cbn [fst snd] in *; [| |done].
      * by destruct Hrun as (new & _ & _ & Hs).
      * destruct Hrun as (new & counter & Hab & Hc & _).
        rewrite (issued_app _ _ _ Hc) in Hok.
        destruct Hab as (pre & tag & post & segs & seg & _ & _ & Hab & ->).
        apply Add_aborted_last in Hab as (before & ev & -> & _ & Hev).
        rewrite app_assoc in Hok. by apply not_all_ok_snoc in Hok.
    + subst ra. unfold Add. by rewrite Hparse.
  - intros Hok. destruct (NameAccountRegionFromARN ecrARN) as [[[repoName accountID] region]|err] eqn:Hparse.
    + pose proof (Remove_ends_as ecrARN tags _ _ _ s Hparse) as Hrun.
      fold rr in Hrun. unfold ends_as in Hrun.
      destruct rr as [[[]|err|msg] s']; cbn [fst snd] in *; [| |done].
      * by destruct Hrun as (new & _ & _ & Hs).
      * destruct Hrun as (new & counter & Hab & Hc & _).
        rewrite (issued_app _ _ _ Hc) in Hok.
        destruct Hab as (pre & tag & post & segs & seg & _ & _ & Hab & ->).
        apply Remove_aborted_last in Hab as (before & ev & -> & _ & Hev).
        rewrite app_assoc in Hok. by apply not_all_ok_snoc in Hok.
    + subst rr. unfold Remove. by rewrite Hparse.
  - subst rg. destruct (NameAccountRegionFromARN ecrARN) as [[[repoName accountID] region]|err] eqn:Hparse.
    + rewrite (Get_run _ _ _ _ _ _ Hparse). cbn zeta.
      destruct (DescribeImages _ _ (remote s)) as [[getRes|e] w]; cbn [fst snd].
      * intros _.
        by destruct (DescribeImagesOutput.ImageDetails getRes) as [|d [|d' ds]].
      * intros Hok. exfalso. revert Hok. cbn [fst snd].
        erewrite issued_app; [|reflexivity].
        by apply (not_all_ok_snoc []).
    + unfold Get. by rewrite Hparse.
Qed.

(** *** The lookups of Add *)

Lemma puts_are_not_lookups c repoName accountID tag imgs :
  filter (λ ev, is_lookup ev = true) (put_ok c repoName accountID tag <$> imgs) = [].
Proof.
  induction imgs as [|img imgs IH]; [done|].
  rewrite fmap_cons, filter_cons_False; [done | cbn; congruence].
Qed.

Lemma Add_done_lookups c repoName accountID version tags segs :
  Forall2 (Add_done c repoName accountID version) tags segs →
  lookups (concat segs) = length tags.
Proof.
  unfold lookups. induction 1 as [|tag seg tags segs [getRes ->] _ IH]; [done|].
  cbn [concat]. rewrite filter_app, length_app, IH.
  rewrite filter_cons_True by done. by rewrite puts_are_not_lookups.
Qed.

Lemma Add_done_lookup_is c repoName accountID version tag seg :
  Add_done c repoName accountID version tag seg →
  Forall (lookup_is c (Add_getReq version accountID repoName)) seg.
Proof.
  intros [getRes ->]. constructor; [done|].
  apply Forall_fmap, Forall_true. done.
Qed.

Lemma Add_aborted_lookup_is c repoName accountID version tag seg err counter :
  Add_aborted c repoName accountID version tag seg err counter →
  Forall (lookup_is c (Add_getReq version accountID repoName)) seg.
Proof.
  destruct 1 as [e|getRes before img after e _].
  - by repeat constructor.
  - constructor; [done|]. apply Forall_app. split.
    + apply Forall_fmap, Forall_true. done.
    + by repeat constructor.
Qed.

(** C10: on a well-formed reference, every lookup that Add issues is the
    same request, whose only image identifier is the tag [version], whatever
    the tag being added; and when the last call of the run is a lookup
    answered with an error [e], that lookup is the one of the iteration of
    some tag of the list (as many lookups were issued as tags up to it) and
    the error returned is [e] wrapped with "failed to get images of tag "
    followed by that tag, not by [version]. *)
Theorem Add_lookup_keyed_by_version ecrARN version tags repoName accountID region s :
  NameAccountRegionFromARN ecrARN = Ok (repoName, accountID, region) →
  let c := ecr_New region in
  let r := Add NameAccountRegionFromARN ecrARN version tags s in
  Forall (lookup_is c (Add_getReq version accountID repoName)) (issued s r.2)
  ∧ BatchGetImageInput.ImageIds (Add_getReq version accountID repoName)
    = [ {| ImageIdentifier.ImageDigest := None;
           ImageIdentifier.ImageTag := Some version |} ]
  ∧ (∀ c' req e,
       last (issued s r.2) = Some (EvBatchGetImage c' req (Err e)) →
       ∃ pre tag post,
         tags = pre ++ tag :: post
         ∧ lookups (issued s r.2) = S (length pre)
         ∧ r.1 = Fail (errors_Wrap e ("failed to get images of tag " +:+ tag))).
Proof.
  intros Hparse c r.
  pose proof (Add_ends_as ecrARN version tags _ _ _ s Hparse) as Hrun.
  fold c r in Hrun. unfold ends_as in Hrun.
  destruct r as [[[]|err|msg] s']; cbn [fst snd] in *; [| |done].
  - destruct Hrun as (new & Hdone & Hc & _).
    rewrite (issued_app _ _ _ Hc). split; [|split; [done|]].
    + destruct Hdone as (segs & Hsegs & ->).
      eapply Forall2_concat_ok; [|exact Hsegs]. apply Add_done_lookup_is.
    + intros c' req e Hlast. exfalso.
      apply all_done_Add_ok in Hdone. rewrite Forall_forall in Hdone.
      apply last_Some_elem_of, Hdone in Hlast. done.
  - destruct Hrun as (new & counter & Hab & Hc & _).
    rewrite (issued_app _ _ _ Hc).
    destruct Hab as (pre & tag & post & segs & seg & -> & Hpre & Hab & ->).
    split; [|split; [done|]].
    + apply Forall_app. split.
      * eapply Forall2_concat_ok; [|exact Hpre]. apply Add_done_lookup_is.
      * by eapply Add_aborted_lookup_is.
    + intros c' req e Hlast. exists pre, tag, post. split; [done|].
      destruct Hab as [e0|getRes before img after e0 _].
      * rewrite last_snoc in Hlast. injection Hlast as <- <- <-.
        split; [|done]. unfold lookups in *.
        rewrite filter_app, length_app.
        fold (lookups (concat segs)). rewrite (Add_done_lookups _ _ _ _ _ _ Hpre).
        rewrite filter_cons_True by done. cbn. lia.
      * rewrite app_comm_cons, app_assoc, last_snoc in Hlast. done.
Qed.

(** * Further properties *)

(** *** Get *)

(** X1: when DescribeImages answers without error and with exactly one
    image detail, Get returns nil error and that image's tags in the
    registry's order, a nil entry read as the empty string; the run is that
    one call, and neither the counters nor the standard output change. *)
Theorem Get_single_image_tags
    ecrARN version repoName accountID region getRes w d s :
  NameAccountRegionFromARN ecrARN = Ok (repoName, accountID, region) →
  DescribeImages (ecr_New region) (Get_getReq version accountID repoName) (remote s)
    = (Ok getRes, w) →
  DescribeImagesOutput.ImageDetails getRes = [d] →
  let ev := EvDescribeImages (ecr_New region)
              (Get_getReq version accountID repoName) (Ok getRes) in
  let s' := log_call ev w s in
  let tags := aws_StringValueSlice (ImageDetail.ImageTags d) in
  Get NameAccountRegionFromARN ecrARN version s = (Return tags, s')
  ∧ length tags = length (ImageDetail.ImageTags d)
  ∧ (∀ i, tags !! i = default EmptyString <$> (ImageDetail.ImageTags d !! i))
  ∧ issued s s' = [ev] ∧ stats s' = stats s ∧ stdout s' = stdout s.
Proof.
  intros Hparse Hdesc Hone ev s' tags. split; [|split; [|split; [|split]]].
  - rewrite (Get_run _ _ _ _ _ _ Hparse). cbn zeta. rewrite Hdesc. cbn [fst snd].
    by rewrite Hone.
  - subst tags. unfold aws_StringValueSlice. by rewrite length_fmap.
  - intros i. subst tags. unfold aws_StringValueSlice. by rewrite list_lookup_fmap.
  - by apply issued_app.
  - done.
Qed.

(** X2: whatever the parser and the registry answer, a run of Get issues no
    mutating call, issues at most one call and prints nothing; on a
    well-formed reference it issues exactly the DescribeImages keyed by the
    version (its request is spelled: one image identifier with the tag
    [version] and no digest, in the parsed registry and repository), and
    leaves the registry as that call left it. *)
Theorem Get_is_read_only ecrARN version s :
  let r := Get NameAccountRegionFromARN ecrARN version s in
  Forall (λ ev, mutating ev = false) (issued s r.2)
  ∧ (length (issued s r.2) ≤ 1)%nat
  ∧ stdout r.2 = stdout s
  ∧ (∀ repoName accountID region,
       NameAccountRegionFromARN ecrARN = Ok (repoName, accountID, region) →
       let c := ecr_New region in
       let req := Get_getReq version accountID repoName in
       issued s r.2 = [EvDescribeImages c req (DescribeImages c req (remote s)).1]
       ∧ remote r.2 = (DescribeImages c req (remote s)).2
       ∧ req = {| DescribeImagesInput.ImageIds :=
                    [ {| ImageIdentifier.ImageDigest := None;
                         ImageIdentifier.ImageTag := Some version |} ];
                  DescribeImagesInput.RegistryId := Some accountID;
                  DescribeImagesInput.RepositoryName := Some repoName |}).
Proof.
  intros r. subst r.
  destruct (NameAccountRegionFromARN ecrARN) as [[[repoName accountID] region]|err] eqn:Hparse.
  - rewrite (Get_run _ _ _ _ _ _ Hparse). cbn zeta.
    destruct (DescribeImages _ _ (remote s)) as [[getRes|e] w] eqn:Hdesc;
      cbn [fst snd].
    + destruct (DescribeImagesOutput.ImageDetails getRes) as [|d [|d' ds]];
        cbn [fst snd]; (erewrite issued_app; [|reflexivity]);
        (split; [by repeat constructor|]); (split; [cbn; lia|]);
        (split; [done|]); intros ? ? ? [= <- <- <-]; by rewrite Hdesc.
    + erewrite issued_app; [|reflexivity].
      split; [by repeat constructor|]. split; [cbn; lia|]. split; [done|].
      intros ? ? ? [= <- <- <-]. by rewrite Hdesc.
  - unfold Get. rewrite Hparse. cbn [throw fst snd]. rewrite issued_refl.
    split; [constructor|]. split; [cbn; lia|]. split; [done|]. intros; discriminate.
Qed.

(** X3: Get panics exactly when the reference is well formed and
    DescribeImages answers without error and without image detail, and it
    returns tags exactly when DescribeImages answers without error and with
    a single image detail; in every other case it returns an error. *)
Theorem Get_outcome_by_details ecrARN version s :
  let r := Get NameAccountRegionFromARN ecrARN version s in
  ((∃ msg, r.1 = Panic msg) ↔
   ∃ repoName accountID region getRes w,
     NameAccountRegionFromARN ecrARN = Ok (repoName, accountID, region)
     ∧ DescribeImages (ecr_New region) (Get_getReq version accountID repoName)
         (remote s) = (Ok getRes, w)
     ∧ DescribeImagesOutput.ImageDetails getRes = [])
  ∧ ((∃ tags, r.1 = Return tags) ↔
     ∃ repoName accountID region getRes w d,
       NameAccountRegionFromARN ecrARN = Ok (repoName, accountID, region)
       ∧ DescribeImages (ecr_New region) (Get_getReq version accountID repoName)
           (remote s) = (Ok getRes, w)
       ∧ DescribeImagesOutput.ImageDetails getRes = [d])
  ∧ ((∀ msg, r.1 ≠ Panic msg) → (∀ tags, r.1 ≠ Return tags) → ∃ err, r.1 = Fail err).
Proof.
  intros r. subst r.
  destruct (NameAccountRegionFromARN ecrARN) as [[[repoName accountID] region]|err] eqn:Hparse.
  - rewrite (Get_run _ _ _ _ _ _ Hparse). cbn zeta.
    destruct (DescribeImages _ _ (remote s)) as [[getRes|e] w] eqn:Hdesc; cbn [fst snd].
    + destruct (DescribeImagesOutput.ImageDetails getRes) as [|d [|d' ds]] eqn:Hds;
        cbn [fst snd].
      * split; [|split].
        -- split; [intros _|by eauto]. by exists repoName, accountID, region, getRes, w.
        -- split; [by intros [? ?]|].
           intros (? & ? & ? & getRes' & ? & ? & [= <- <- <-] & Hd' & Hone).
           rewrite Hdesc in Hd'. injection Hd' as <- <-. congruence.
        -- intros Hp _. by destruct (Hp (index_panic_msg 0 0)).
      * split; [|split].
        -- split; [by intros [? ?]|].
           intros (? & ? & ? & getRes' & ? & [= <- <- <-] & Hd' & Hnil).
           rewrite Hdesc in Hd'. injection Hd' as <- <-. congruence.
        -- split; [intros _|by eauto].
           by exists repoName, accountID, region, getRes, w, d.
        -- intros _ Hr. by destruct (Hr (aws_StringValueSlice (ImageDetail.ImageTags d))).
      * split; [|split].
        -- split; [by intros [? ?]|].
           intros (? & ? & ? & getRes' & ? & [= <- <- <-] & Hd' & Hnil).
           rewrite Hdesc in Hd'. injection Hd' as <- <-. congruence.
        -- split; [by intros [? ?]|].
           intros (? & ? & ? & getRes' & ? & ? & [= <- <- <-] & Hd' & Hone).
           rewrite Hdesc in Hd'. injection Hd' as <- <-. congruence.
        -- eauto.
    + split; [|split].
      * split; [by intros [? ?]|].
        intros (? & ? & ? & getRes' & ? & [= <- <- <-] & Hd' & _).
        rewrite Hdesc in Hd'. discriminate.
      * split; [by intros [? ?]|].
        intros (? & ? & ? & getRes' & ? & ? & [= <- <- <-] & Hd' & _).
        rewrite Hdesc in Hd'. discriminate.
      * eauto.
  - unfold Get. rewrite Hparse. cbn [throw fst snd]. split; [|split].
    + split; [by intros [? ?]|]. by intros (? & ? & ? & ? & ? & ? & _).
    + split; [by intros [? ?]|]. by intros (? & ? & ? & ? & ? & ? & ? & _).
    + eauto.
Qed.

(** *** Properties of every call of a run of Add or Remove *)

Lemma Forall2_concat_elem {A} (Done : A → list Event → Prop) (P : Event → Prop) xs segs :
  (∀ x seg, x ∈ xs → Done x seg → Forall P seg) →
  Forall2 Done xs segs → Forall P (concat segs).
Proof.
  intros HD H. induction H as [|x seg xs segs Hd _ IH]; cbn; [constructor|].
  apply Forall_app. split.
  - apply (HD x); [apply elem_of_cons; by left | done].
  - apply IH. intros y sg Hy. apply HD, elem_of_cons. by right.
Qed.

(** What holds of the calls of every completed and of every aborted
    iteration holds of every call of the run. *)
Lemma Add_issued_Forall (P : Event → Prop) ecrARN version tags repoName accountID region s :
  NameAccountRegionFromARN ecrARN = Ok (repoName, accountID, region) →
  (∀ tag seg, tag ∈ tags →
     Add_done (ecr_New region) repoName accountID version tag seg → Forall P seg) →
  (∀ tag seg err counter, tag ∈ tags →
     Add_aborted (ecr_New region) repoName accountID version tag seg err counter →
     Forall P seg) →
  Forall P (issued s (Add NameAccountRegionFromARN ecrARN version tags s).2).
Proof.
  intros Hparse Hdone Hab.
  pose proof (Add_ends_as ecrARN version tags _ _ _ s Hparse) as Hrun.
  unfold ends_as in Hrun.
  destruct (Add _ _ _ _ _) as [[[]|err|msg] s']; cbn [fst snd] in *; [| |done].
  - destruct Hrun as (new & (segs & Hsegs & ->) & Hc & _).
    rewrite (issued_app _ _ _ Hc). by eapply Forall2_concat_elem.
  - destruct Hrun as (new & counter & Habt & Hc & _).
    rewrite (issued_app _ _ _ Hc).
    destruct Habt as (pre & tag & post & segs & seg & -> & Hpre & Htag & ->).
    apply Forall_app. split.
    + eapply Forall2_concat_elem; [|exact Hpre].
      intros x sg Hx. apply Hdone, elem_of_app. by left.
    + eapply Hab; [|exact Htag]. apply elem_of_app. right. apply elem_of_cons. by left.
Qed.

Lemma Remove_issued_Forall (P : Event → Prop) ecrARN tags repoName accountID region s :
  NameAccountRegionFromARN ecrARN = Ok (repoName, accountID, region) →
  (∀ tag seg, tag ∈ tags →
     Remove_done (ecr_New region) repoName accountID tag seg → Forall P seg) →
  (∀ tag seg err counter, tag ∈ tags →
     Remove_aborted (ecr_New region) repoName accountID tag seg err counter →
     Forall P seg) →
  Forall P (issued s (Remove NameAccountRegionFromARN ecrARN tags s).2).
Proof.
  intros Hparse Hdone Hab.
  pose proof (Remove_ends_as ecrARN tags _ _ _ s Hparse) as Hrun.
  unfold ends_as in Hrun.
  destruct (Remove _ _ _ _) as [[[]|err|msg] s']; cbn [fst snd] in *; [| |done].
  - destruct Hrun as (new & (segs & Hsegs & ->) & Hc & _).
    rewrite (issued_app _ _ _ Hc). by eapply Forall2_concat_elem.
  - destruct Hrun as (new & counter & Habt & Hc & _).
    rewrite (issued_app _ _ _ Hc).
    destruct Habt as (pre & tag & post & segs & seg & -> & Hpre & Htag & ->).
    apply Forall_app. split.
    + eapply Forall2_concat_elem; [|exact Hpre].
      intros x sg Hx. apply Hdone, elem_of_app. by left.
    + eapply Hab; [|exact Htag]. apply elem_of_app. right. apply elem_of_cons. by left.
Qed.

(** The one call of Get on a well-formed reference. *)
Lemma Get_issues_one_call ecrARN version repoName accountID region s :
  NameAccountRegionFromARN ecrARN = Ok (repoName, accountID, region) →
  ∃ res,
    issued s (Get NameAccountRegionFromARN ecrARN version s).2
    = [EvDescribeImages (ecr_New region) (Get_getReq version accountID repoName) res].
Proof.
  intros Hparse. rewrite (Get_run _ _ _ _ _ _ Hparse). cbn zeta.
  destruct (DescribeImages _ _ (remote s)) as [[getRes|e] w]; cbn [fst snd].
  - destruct (DescribeImagesOutput.ImageDetails getRes) as [|d [|d' ds]];
      cbn [fst snd]; eexists; by apply issued_app.
  - eexists. by apply issued_app.
Qed.

(** X4: on a well-formed reference, every remote call of a run of Add,
    Remove or Get, failed or not, goes through the client of the parsed
    region and names the parsed account as registry and the parsed name as
    repository. *)
Theorem requests_addressed_to_reference
    ecrARN version tags repoName accountID region s :
  NameAccountRegionFromARN ecrARN = Ok (repoName, accountID, region) →
  let P := addressed_to (ecr_New region) accountID repoName in
  Forall P (issued s (Add NameAccountRegionFromARN ecrARN version tags s).2)
  ∧ Forall P (issued s (Remove NameAccountRegionFromARN ecrARN tags s).2)
  ∧ Forall P (issued s (Get NameAccountRegionFromARN ecrARN version s).2).
Proof.
  intros Hparse P. split; [|split].
  - apply (Add_issued_Forall P _ _ _ _ _ _ _ Hparse).
    + intros tag seg _ [getRes ->]. constructor; [done|].
      apply Forall_fmap, Forall_true. done.
    + intros tag seg err counter _ [e|getRes before img after e _].
      * by repeat constructor.
      * constructor; [done|]. apply Forall_app. split.
        -- apply Forall_fmap, Forall_true. done.
        -- by repeat constructor.
  - apply (Remove_issued_Forall P _ _ _ _ _ _ Hparse).
    + intros tag seg _ [getRes ->]. constructor; [done|].
      apply Forall_fmap, Forall_true. done.
    + intros tag seg err counter _ [e|getRes before img after e _].
      * by repeat constructor.
      * constructor; [done|]. apply Forall_app. split.
        -- apply Forall_fmap, Forall_true. done.
        -- by repeat constructor.
  - destruct (Get_issues_one_call ecrARN version _ _ _ s Hparse) as [res ->].
    by repeat constructor.
Qed.

(** X5: whatever the parser and the registry answer, every mutating call of
    a run of Add is a PutImage naming a tag of the list, and every mutating
    call of a run of Remove is a BatchDeleteImage naming a tag of the list:
    Add never deletes, Remove never puts, and no other tag is named. *)
Theorem only_listed_tags_are_mutated ecrARN version tags s :
  Forall (mutates_only is_put tags)
    (issued s (Add NameAccountRegionFromARN ecrARN version tags s).2)
  ∧ Forall (mutates_only is_delete tags)
      (issued s (Remove NameAccountRegionFromARN ecrARN tags s).2).
Proof.
  destruct (NameAccountRegionFromARN ecrARN) as [[[repoName accountID] region]|err] eqn:Hparse.
  - split.
    + apply (Add_issued_Forall _ _ _ _ _ _ _ _ Hparse).
      * intros tag seg Hin [getRes ->]. constructor; [done|].
        apply Forall_fmap, Forall_true. intros img _. split; [done|]. by exists tag.
      * intros tag seg err counter Hin [e|getRes before img after e _].
        -- by repeat constructor.
        -- constructor; [done|]. apply Forall_app. split.
           ++ apply Forall_fmap, Forall_true. intros img' _. split; [done|]. by exists tag.
           ++ repeat constructor. by exists tag.
    + apply (Remove_issued_Forall _ _ _ _ _ _ _ Hparse).
      * intros tag seg Hin [getRes ->]. constructor; [done|].
        apply Forall_fmap, Forall_true. intros img _. split; [done|]. by exists tag.
      * intros tag seg err counter Hin [e|getRes before img after e _].
        -- by repeat constructor.
        -- constructor; [done|]. apply Forall_app. split.
           ++ apply Forall_fmap, Forall_true. intros img' _. split; [done|]. by exists tag.
           ++ repeat constructor. by exists tag.
  - unfold Add, Remove. rewrite Hparse. cbn [throw fst snd]. rewrite !issued_refl.
    split; constructor.
Qed.

(** *** The standard output *)

(** What every iteration preserves, the loop preserves. *)
Lemma range_preserves {A} (body : A → M unit) (R : State → State → Prop) :
  (∀ s, R s s) → (∀ s1 s2 s3, R s1 s2 → R s2 s3 → R s1 s3) →
  (∀ x s, R s (body x s).2) →
  ∀ xs s, R s (range xs body s).2.
Proof.
  intros Hrefl Htrans Hbody xs. induction xs as [|x xs IH]; intros s; [apply Hrefl|].
  cbn [range]. rewrite bind_run. specialize (Hbody x s).
  destruct (body x s) as [[[]|e|msg] s1]; cbn [snd] in *; [|done..].
  eapply Htrans; [exact Hbody | apply IH].
Qed.

Lemma lookups_app log1 log2 : lookups (log1 ++ log2) = lookups log1 + lookups log2.
Proof. unfold lookups. by rewrite filter_app, length_app. Qed.

Lemma prints_refl line s : prints line s s.
Proof. exists []. split; by rewrite app_nil_r. Qed.

Lemma prints_trans line s1 s2 s3 :
  prints line s1 s2 → prints line s2 s3 → prints line s1 s3.
Proof.
  intros (new1 & Hc1 & Ho1) (new2 & Hc2 & Ho2). exists (new1 ++ new2). split.
  - by rewrite Hc2, Hc1, app_assoc.
  - by rewrite Ho2, Ho1, lookups_app, replicate_add, app_assoc.
Qed.

Lemma Add_image_prints line c repoName accountID tag img s :
  prints line s (Add_image c repoName accountID tag img s).2.
Proof.
  unfold Add_image. rewrite bind_run. unfold ecrClient_PutImage.
  destruct (PutImage _ _ _) as [[[]|e] w]; rewrite ?bind_run; cbn;
    (eexists [_]; split; [done | by rewrite app_nil_r]).
Qed.

Lemma Add_tag_prints c repoName accountID version tags tag s :
  prints (Add_line tags) s (Add_tag c repoName accountID version tags tag s).2.
Proof.
  unfold Add_tag. rewrite bind_run. cbn [Printf]. rewrite bind_run.
  unfold ecrClient_BatchGetImage. cbn [remote].
  destruct (BatchGetImage _ _ _) as [[getRes|e] w].
  - match goal with |- prints _ _ (range ?xs ?body ?s1).2 =>
      apply (prints_trans _ _ s1); [eexists [_]; split; done|];
      apply (range_preserves body (prints (Add_line tags)));
        [apply prints_refl | apply prints_trans
         | intros img s2; apply Add_image_prints]
    end.
  - rewrite bind_run. cbn. eexists [_]. split; done.
Qed.

Lemma Remove_image_silent c repoName accountID tag img s :
  stdout (Remove_image c repoName accountID tag img s).2 = stdout s.
Proof.
  unfold Remove_image. rewrite bind_run. unfold ecrClient_BatchDeleteImage.
  by destruct (BatchDeleteImage _ _ _) as [[[]|e] w]; rewrite ?bind_run.
Qed.

Lemma Remove_tag_silent c repoName accountID tag s :
  stdout (Remove_tag c repoName accountID tag s).2 = stdout s.
Proof.
  unfold Remove_tag. rewrite bind_run. unfold ecrClient_BatchGetImage.
  destruct (BatchGetImage _ _ _) as [[getRes|e] w].
  - match goal with |- stdout (range ?xs ?body ?s1).2 = _ =>
      change (stdout s) with (stdout s1);
      apply (range_preserves body (λ s s', stdout s' = stdout s))
    end; [done | congruence | intros img s1; apply Remove_image_silent].
  - by rewrite bind_run.
Qed.

(** X6: whatever the parser and the registry answer, a run of Add prints
    the line "Tags are [t1 ... tn] " with the whole tag list once per lookup
    it issues, before that lookup, and nothing else; a run that returns nil
    has issued one lookup per element of the list.  A run of Remove prints
    nothing. *)
Theorem Add_prints_once_per_lookup ecrARN version tags s :
  let ra := Add NameAccountRegionFromARN ecrARN version tags s in
  let rr := Remove NameAccountRegionFromARN ecrARN tags s in
  stdout ra.2 = stdout s ++ replicate (lookups (issued s ra.2)) (Add_line tags)
  ∧ (ra.1 = Return () → lookups (issued s ra.2) = length tags)
  ∧ stdout rr.2 = stdout s.
Proof.
  intros ra rr. subst ra rr.
  destruct (NameAccountRegionFromARN ecrARN) as [[[repoName accountID] region]|err] eqn:Hparse.
  - split; [|split].
    + assert (prints (Add_line tags) s
                (Add NameAccountRegionFromARN ecrARN version tags s).2)
        as (new & Hc & Ho).
      { unfold Add. rewrite Hparse. cbn zeta.
        apply (range_preserves _ (prints (Add_line tags)));
          [apply prints_refl | apply prints_trans | intros; apply Add_tag_prints]. }
      by rewrite (issued_app _ _ _ Hc).
    + pose proof (Add_ends_as ecrARN version tags _ _ _ s Hparse) as Hrun.
      unfold ends_as in Hrun.
      destruct (Add _ _ _ _ _) as [[[]|err|msg] s']; cbn [fst snd] in *; [|done..].
      destruct Hrun as (new & (segs & Hsegs & ->) & Hc & _). intros _.
      rewrite (issued_app _ _ _ Hc). by eapply Add_done_lookups.
    + unfold Remove. rewrite Hparse. cbn zeta.
      apply (range_preserves _ (λ s s', stdout s' = stdout s));
        [done | congruence | intros; apply Remove_tag_silent].
  - unfold Add, Remove. rewrite Hparse. cbn [throw fst snd]. rewrite issued_refl.
    split; [by rewrite app_nil_r|]. split; done.
Qed.

(** *** Concatenated tag lists *)

Lemma range_app {A} (body : A → M unit) xs ys s :
  range (xs ++ ys) body s = (range xs body ;; range ys body) s.
Proof.
  revert s. induction xs as [|x xs IH]; intros s; [done|].
  cbn [app range]. rewrite !bind_run.
  destruct (body x s) as [[[]|e|msg] s1]; [|done..].
  by rewrite IH, bind_run.
Qed.

Lemma agree_refl s : agree s s.
Proof. done. Qed.

Lemma range_agree {A} (body1 body2 : A → M unit) :
  (∀ x s1 s2, agree s1 s2 → agree_run (body1 x s1) (body2 x s2)) →
  ∀ xs s1 s2, agree s1 s2 → agree_run (range xs body1 s1) (range xs body2 s2).
Proof.
  intros Hbody xs. induction xs as [|x xs IH]; intros s1 s2 Hs; [done|].
  cbn [range]. rewrite !bind_run. specialize (Hbody x s1 s2 Hs).
  destruct (body1 x s1) as [[[]|e1|m1] s1'], (body2 x s2) as [[[]|e2|m2] s2'];
    destruct Hbody as [Ho Hs']; cbn [fst snd] in *; try discriminate;
    [by apply IH | done..].
Qed.

Lemma Add_image_agree c repoName accountID tag img s1 s2 :
  agree s1 s2 →
  agree_run (Add_image c repoName accountID tag img s1)
            (Add_image c repoName accountID tag img s2).
Proof.
  intros (Hr & Hc & Hs). unfold Add_image. rewrite !bind_run.
  unfold ecrClient_PutImage. rewrite Hr.
  destruct (PutImage _ _ _) as [[[]|e] w]; rewrite ?bind_run; cbn;
    unfold agree_run, agree; cbn; by rewrite Hc, Hs.
Qed.

(** The list printed by an iteration of Add has no other effect. *)
Lemma Add_tag_agree c repoName accountID version tags1 tags2 tag s1 s2 :
  agree s1 s2 →
  agree_run (Add_tag c repoName accountID version tags1 tag s1)
            (Add_tag c repoName accountID version tags2 tag s2).
Proof.
  intros (Hr & Hc & Hs). unfold Add_tag. rewrite !bind_run. cbn [Printf].
  rewrite !bind_run. unfold ecrClient_BatchGetImage. cbn [remote]. rewrite Hr.
  destruct (BatchGetImage _ _ _) as [[getRes|e] w].
  - apply range_agree; [intros; by apply Add_image_agree|].
    unfold agree; cbn. by rewrite Hc, Hs.
  - rewrite !bind_run. cbn. unfold agree_run, agree; cbn. by rewrite Hc, Hs.
Qed.

(** X7: whatever the parser and the registry answer, Remove of a
    concatenated list is Remove of its first part followed, when that
    returned nil, by Remove of its second part: the outcome and the whole
    final state are the same.  For Add the same holds of the outcome, the
    registry, the log of calls and the counters; only the printed lines
    differ, since each run prints its own list. *)
Theorem concatenated_tag_lists ecrARN version tags1 tags2 s :
  Remove NameAccountRegionFromARN ecrARN (tags1 ++ tags2) s
  = (Remove NameAccountRegionFromARN ecrARN tags1 ;;
     Remove NameAccountRegionFromARN ecrARN tags2) s
  ∧ agree_run
      (Add NameAccountRegionFromARN ecrARN version (tags1 ++ tags2) s)
      ((Add NameAccountRegionFromARN ecrARN version tags1 ;;
        Add NameAccountRegionFromARN ecrARN version tags2) s).
Proof.
  rewrite !bind_run. unfold Add, Remove.
  destruct (NameAccountRegionFromARN ecrARN) as [[[repoName accountID] region]|err] eqn:Hparse;
    [|done].
  cbn zeta. split.
  - rewrite range_app, bind_run.
    by destruct (range tags1 _ s) as [[[]|e|msg] s1].
  - rewrite range_app, bind_run.
    pose proof (range_agree
      (Add_tag (ecr_New region) repoName accountID version (tags1 ++ tags2))
      (Add_tag (ecr_New region) repoName accountID version tags1)
      (λ tag s1 s2, Add_tag_agree _ _ _ _ _ _ tag s1 s2) tags1 s s (agree_refl s))
      as [Ho Hs].
    destruct (range tags1 (Add_tag _ _ _ _ (tags1 ++ tags2)) s) as [[[]|e1|m1] s1],
             (range tags1 (Add_tag _ _ _ _ tags1) s) as [[[]|e2|m2] s2];
      cbn [fst snd] in *; try discriminate; [|done..].
    apply range_agree; [|done]. intros; by apply Add_tag_agree.
Qed.

(** *** The tags touched *)

Lemma touched_app log1 log2 : touched (log1 ++ log2) = touched log1 ++ touched log2.
Proof. unfold touched. by rewrite filter_app, omap_app. Qed.

Lemma touched_puts c repoName accountID tag imgs :
  touched (put_ok c repoName accountID tag <$> imgs) = replicate (length imgs) tag.
Proof.
  induction imgs as [|img imgs IH]; [done|].
  change (touched (put_ok c repoName accountID tag img
                   :: (put_ok c repoName accountID tag <$> imgs))
          = tag :: replicate (length imgs) tag).
  rewrite <-IH. unfold touched. by rewrite filter_cons_True.
Qed.

Lemma touched_deletes c repoName accountID tag imgs :
  touched (delete_ok c repoName accountID tag <$> imgs) = replicate (length imgs) tag.
Proof.
  induction imgs as [|img imgs IH]; [done|].
  change (touched (delete_ok c repoName accountID tag img
                   :: (delete_ok c repoName accountID tag <$> imgs))
          = tag :: replicate (length imgs) tag).
  rewrite <-IH. unfold touched. by rewrite filter_cons_True.
Qed.

Lemma touched_unapplied ev log : applied ev = false → touched (ev :: log) = touched log.
Proof.
  intros Hev. unfold touched. rewrite filter_cons_False; [done|]. by rewrite Hev.
Qed.

(** A completed iteration touches its tag once per image found. *)
Lemma Add_done_touched c repoName accountID version tag seg (P : nat → Prop) :
  Add_done c repoName accountID version tag seg →
  Forall (lookup_finds P) seg →
  ∃ n, P n ∧ touched seg = replicate n tag ∧ length seg = S n.
Proof.
  intros [getRes ->] Hfinds. apply Forall_cons in Hfinds as [Hn _].
  exists (length (BatchGetImageOutput.Images getRes)). split; [done|].
  rewrite touched_unapplied by done. rewrite touched_puts.
  split; [done|]. cbn. by rewrite length_fmap.
Qed.

Lemma Remove_done_touched c repoName accountID tag seg (P : nat → Prop) :
  Remove_done c repoName accountID tag seg →
  Forall (lookup_finds P) seg →
  ∃ n, P n ∧ touched seg = replicate n tag ∧ length seg = S n.
Proof.
  intros [getRes ->] Hfinds. apply Forall_cons in Hfinds as [Hn _].
  exists (length (BatchGetImageOutput.Images getRes)). split; [done|].
  rewrite touched_unapplied by done. rewrite touched_deletes.
  split; [done|]. cbn. by rewrite length_fmap.
Qed.

(** An aborted iteration touches its tag once per image that precedes the
    one whose call failed, and holds one lookup. *)
Lemma Add_aborted_touched c repoName accountID version tag seg err counter (P : nat → Prop) :
  Add_aborted c repoName accountID version tag seg err counter →
  Forall (lookup_finds P) seg →
  lookups seg = 1
  ∧ ∃ n, touched seg = replicate n tag ∧ (n = 0 ∨ ∃ m, P m ∧ n < m).
Proof.
  destruct 1 as [e|getRes before img after e Himgs]; intros Hfinds.
  - split; [done|]. exists 0. split; [done | by left].
  - apply Forall_cons in Hfinds as [Hn _]. cbn in Hn. split.
    + unfold lookups. rewrite filter_cons_True by done.
      rewrite filter_app, puts_are_not_lookups. done.
    + exists (length before). split.
      * rewrite touched_unapplied by done.
        rewrite touched_app, touched_puts, touched_unapplied by done.
        by rewrite app_nil_r.
      * right. eexists. split; [exact Hn|]. rewrite Himgs, length_app. cbn. lia.
Qed.

Lemma deletes_are_not_lookups c repoName accountID tag imgs :
  filter (λ ev, is_lookup ev = true) (delete_ok c repoName accountID tag <$> imgs) = [].
Proof.
  induction imgs as [|img imgs IH]; [done|].
  rewrite fmap_cons, filter_cons_False; [done | cbn; congruence].
Qed.

Lemma Remove_done_lookups c repoName accountID tags segs :
  Forall2 (Remove_done c repoName accountID) tags segs →
  lookups (concat segs) = length tags.
Proof.
  unfold lookups. induction 1 as [|tag seg tags segs [getRes ->] _ IH]; [done|].
  cbn [concat]. rewrite filter_app, length_app, IH.
  rewrite filter_cons_True by done. by rewrite deletes_are_not_lookups.
Qed.

Lemma Remove_aborted_touched c repoName accountID tag seg err counter (P : nat → Prop) :
  Remove_aborted c repoName accountID tag seg err counter →
  Forall (lookup_finds P) seg →
  lookups seg = 1
  ∧ ∃ n, touched seg = replicate n tag ∧ (n = 0 ∨ ∃ m, P m ∧ n < m).
Proof.
  destruct 1 as [e|getRes before img after e Himgs]; intros Hfinds.
  - split; [done|]. exists 0. split; [done | by left].
  - apply Forall_cons in Hfinds as [Hn _]. cbn in Hn. split.
    + unfold lookups. rewrite filter_cons_True by done.
      rewrite filter_app, deletes_are_not_lookups. done.
    + exists (length before). split.
      * rewrite touched_unapplied by done.
        rewrite touched_app, touched_deletes, touched_unapplied by done.
        by rewrite app_nil_r.
      * right. eexists. split; [exact Hn|]. rewrite Himgs, length_app. cbn. lia.
Qed.

(** Completed iterations whose lookups find one image each touch their tags
    in order, in two calls each. *)
Lemma done_exactly_one {A} (Done : A → list Event → Prop) (tag_of : A → string) xs segs :
  (∀ x seg, Done x seg → Forall (lookup_finds (λ n, n = 1)) seg →
     ∃ n, n = 1 ∧ touched seg = replicate n (tag_of x) ∧ length seg = S n) →
  Forall2 Done xs segs →
  Forall (lookup_finds (λ n, n = 1)) (concat segs) →
  touched (concat segs) = tag_of <$> xs ∧ length (concat segs) = 2 * length xs.
Proof.
  intros HD. induction 1 as [|x seg xs segs Hd _ IH]; [done|].
  cbn [concat]. intros [Hseg Hrest]%Forall_app.
  destruct (HD x seg Hd Hseg) as (n & -> & Ht & Hl).
  destruct (IH Hrest) as [IHt IHl].
  rewrite touched_app, length_app, Ht, Hl, IHt, IHl. split; [done | cbn; lia].
Qed.

(** Completed iterations whose lookups find at most one image each touch
    some of their tags, in order, once. *)
Lemma done_at_most_one {A} (Done : A → list Event → Prop) (tag_of : A → string) xs segs :
  (∀ x seg, Done x seg → Forall (lookup_finds (λ n, (n ≤ 1)%nat)) seg →
     ∃ n : nat, (n ≤ 1)%nat ∧ touched seg = replicate n (tag_of x) ∧ length seg = S n) →
  Forall2 Done xs segs →
  Forall (lookup_finds (λ n, (n ≤ 1)%nat)) (concat segs) →
  sublist (touched (concat segs)) (tag_of <$> xs).
Proof.
  intros HD. induction 1 as [|x seg xs segs Hd _ IH]; [constructor|].
  cbn [concat]. intros [Hseg Hrest]%Forall_app.
  destruct (HD x seg Hd Hseg) as (n & Hn & Ht & _).
  rewrite touched_app, Ht, fmap_cons.
  destruct n as [|[|n]]; [|  |lia].
  - by apply sublist_cons, IH.
  - by apply sublist_skip, IH.
Qed.

(** X8: on a well-formed reference, when every answered lookup of a run of
    Add or Remove finds at most one image and some remote call fails, the
    partial-failure boundary is exact: the run fails in the iteration of
    some tag of the list, having issued one lookup per tag up to it, and
    the tags touched form a sub-list of the tags that precede it: the
    iteration that failed and the later ones touched nothing. *)
Theorem exact_boundary_when_lookups_find_one
    ecrARN version tags repoName accountID region s :
  NameAccountRegionFromARN ecrARN = Ok (repoName, accountID, region) →
  let ra := Add NameAccountRegionFromARN ecrARN version tags s in
  let rr := Remove NameAccountRegionFromARN ecrARN tags s in
  (Exists (λ ev, failed ev = true) (issued s ra.2) →
   Forall (lookup_finds (λ n, (n ≤ 1)%nat)) (issued s ra.2) →
   ∃ pre tag post,
     tags = pre ++ tag :: post
     ∧ lookups (issued s ra.2) = S (length pre)
     ∧ sublist (touched (issued s ra.2)) pre)
  ∧ (Exists (λ ev, failed ev = true) (issued s rr.2) →
     Forall (lookup_finds (λ n, (n ≤ 1)%nat)) (issued s rr.2) →
     ∃ pre tag post,
       tags = pre ++ tag :: post
       ∧ lookups (issued s rr.2) = S (length pre)
       ∧ sublist (touched (issued s rr.2)) pre).
Proof.
  intros Hparse ra rr. split.
  - intros Hex.
    pose proof (Add_ends_as ecrARN version tags _ _ _ s Hparse) as Hrun.
    fold ra in Hrun. unfold ends_as in Hrun.
    destruct ra as [[[]|err|msg] s']; cbn [fst snd] in *; [| |done].
    + destruct Hrun as (new & Hdone & Hc & _).
      rewrite (issued_app _ _ _ Hc) in Hex.
      by apply all_done_Add_ok, all_ok_no_failure in Hdone.
    + destruct Hrun as (new & counter & Hab & Hc & _).
      rewrite (issued_app _ _ _ Hc).
      destruct Hab as (pre & tag & post & segs & seg & -> & Hpre & Hab & ->).
      intros [Hsegs Hseg]%Forall_app.
      destruct (Add_aborted_touched _ _ _ _ _ _ _ _ _ Hab Hseg)
        as (Hlk & n & Ht & Hn).
      exists pre, tag, post. split; [done|]. split.
      * rewrite lookups_app, Hlk, (Add_done_lookups _ _ _ _ _ _ Hpre). lia.
      * rewrite touched_app, Ht.
        assert (n = 0) as -> by (destruct Hn as [|(m & ? & ?)]; lia).
        rewrite app_nil_r, <-(list_fmap_id pre).
        eapply (done_at_most_one _ id); [|exact Hpre|exact Hsegs].
        intros x sg. apply Add_done_touched.
  - intros Hex.
    pose proof (Remove_ends_as ecrARN tags _ _ _ s Hparse) as Hrun.
    fold rr in Hrun. unfold ends_as in Hrun.
    destruct rr as [[[]|err|msg] s']; cbn [fst snd] in *; [| |done].
    + destruct Hrun as (new & Hdone & Hc & _).
      rewrite (issued_app _ _ _ Hc) in Hex.
      by apply all_done_Remove_ok, all_ok_no_failure in Hdone.
    + destruct Hrun as (new & counter & Hab & Hc & _).
      rewrite (issued_app _ _ _ Hc).
      destruct Hab as (pre & tag & post & segs & seg & -> & Hpre & Hab & ->).
      intros [Hsegs Hseg]%Forall_app.
      destruct (Remove_aborted_touched _ _ _ _ _ _ _ _ Hab Hseg)
        as (Hlk & n & Ht & Hn).
      exists pre, tag, post. split; [done|]. split.
      * rewrite lookups_app, Hlk, (Remove_done_lookups _ _ _ _ _ Hpre). lia.
      * rewrite touched_app, Ht.
        assert (n = 0) as -> by (destruct Hn as [|(m & ? & ?)]; lia).
        rewrite app_nil_r, <-(list_fmap_id pre).
        eapply (done_at_most_one _ id); [|exact Hpre|exact Hsegs].
        intros x sg. apply Remove_done_touched.
Qed.

(** X9: on a well-formed reference, when every remote call of a run of Add
    or Remove is answered and every lookup finds exactly one image, the run
    returns nil after two calls per element of the list, and the tags
    touched are exactly the list, in its order and with its repetitions. *)
Theorem answered_run_touches_the_list
    ecrARN version tags repoName accountID region s :
  NameAccountRegionFromARN ecrARN = Ok (repoName, accountID, region) →
  let ra := Add NameAccountRegionFromARN ecrARN version tags s in
  let rr := Remove NameAccountRegionFromARN ecrARN tags s in
  (Forall (λ ev, failed ev = false) (issued s ra.2) →
   Forall (lookup_finds (λ n, n = 1)) (issued s ra.2) →
   ra.1 = Return () ∧ touched (issued s ra.2) = tags
   ∧ length (issued s ra.2) = 2 * length tags)
  ∧ (Forall (λ ev, failed ev = false) (issued s rr.2) →
     Forall (lookup_finds (λ n, n = 1)) (issued s rr.2) →
     rr.1 = Return () ∧ touched (issued s rr.2) = tags
     ∧ length (issued s rr.2) = 2 * length tags).
Proof.
  intros Hparse ra rr. split.
  - intros Hok.
    pose proof (Add_ends_as ecrARN version tags _ _ _ s Hparse) as Hrun.
    fold ra in Hrun. unfold ends_as in Hrun.
    destruct ra as [[[]|err|msg] s']; cbn [fst snd] in *; [| |done].
    + destruct Hrun as (new & (segs & Hsegs & ->) & Hc & _).
      rewrite (issued_app _ _ _ Hc). intros Hone. split; [done|].
      rewrite <-(list_fmap_id tags) at 1.
      eapply (done_exactly_one _ id); [|exact Hsegs|exact Hone].
      intros x sg. apply Add_done_touched.
    + destruct Hrun as (new & counter & Hab & Hc & _).
      rewrite (issued_app _ _ _ Hc) in Hok.
      destruct Hab as (pre & tag & post & segs & seg & _ & _ & Hab & ->).
      apply Add_aborted_last in Hab as (before & ev & -> & _ & Hev).
      rewrite app_assoc in Hok. by apply not_all_ok_snoc in Hok.
  - intros Hok.
    pose proof (Remove_ends_as ecrARN tags _ _ _ s Hparse) as Hrun.
    fold rr in Hrun. unfold ends_as in Hrun.
    destruct rr as [[[]|err|msg] s']; cbn [fst snd] in *; [| |done].
    + destruct Hrun as (new & (segs & Hsegs & ->) & Hc & _).
      rewrite (issued_app _ _ _ Hc). intros Hone. split; [done|].
      rewrite <-(list_fmap_id tags) at 1.
      eapply (done_exactly_one _ id); [|exact Hsegs|exact Hone].
      intros x sg. apply Remove_done_touched.
    + destruct Hrun as (new & counter & Hab & Hc & _).
      rewrite (issued_app _ _ _ Hc) in Hok.
      destruct Hab as (pre & tag & post & segs & seg & _ & _ & Hab & ->).
      apply Remove_aborted_last in Hab as (before & ev & -> & _ & Hev).
      rewrite app_assoc in Hok. by apply not_all_ok_snoc in Hok.
Qed.

End Runs.

(** * Closed instances on the scripted registry *)

(** C1: Get on the sample reference, when DescribeImages answers without
    error and without any image detail, does not return: it panics on
    [getRes.ImageDetails[0]] with Go's index-out-of-range error.  No
    not-found error is returned. *)
Theorem Get_zero_images_panics :
  (Get sample_parser sample_ARN "v1" (fresh [describing []])).1
  = Panic "runtime error: index out of range [0] with length 0".
Proof.
  rewrite (Get_no_image_details sample_parser sample_ARN "v1"
             "app" "123456789012" "us-east-1"
             {| DescribeImagesOutput.ImageDetails := [] |} []);
    reflexivity.
Qed.

(** C2 as stated fails.  Remove of [a; env; b] fails at the second tag (two
    lookups were issued and the error names env), yet a delete of env was
    applied before the failure: env is among the tags touched, which are not
    all among the tags before the second.  The same holds for Add when the
    lookup finds two images. *)
Lemma failing_tag_is_touched :
  let s := fresh Remove_second_delete_fails in
  let r := Remove sample_parser sample_ARN ["a"; "env"; "b"] s in
  let s0 := fresh Add_second_put_fails in
  let r0 := Add sample_parser sample_ARN "v1" ["a"; "env"; "b"] s0 in
  (r.1 = Fail (errors_Wrap throttled
                 "failed to perform batch delete image by tag env and digest d2")
   ∧ lookups (issued s r.2) = 2
   ∧ touched (issued s r.2) = ["a"; "env"]
   ∧ ¬ (∀ tag, tag ∈ touched (issued s r.2) → tag ∈ take 1 ["a"; "env"; "b"]))
  ∧ (r0.1 = Fail (errors_Wrap throttled
                    "failed to add tag env to image manifest m2")
     ∧ lookups (issued s0 r0.2) = 2
     ∧ touched (issued s0 r0.2) = ["a"; "a"; "env"]
     ∧ ¬ (∀ tag, tag ∈ touched (issued s0 r0.2) → tag ∈ take 1 ["a"; "env"; "b"])).
Proof.
  cbv zeta. split.
  - split; [reflexivity|]. split; [reflexivity|].
    assert (touched (issued (fresh Remove_second_delete_fails)
              (Remove sample_parser sample_ARN ["a"; "env"; "b"]
                 (fresh Remove_second_delete_fails)).2) = ["a"; "env"]) as ->
      by reflexivity.
    split; [reflexivity|]. intros H.
    assert ("env" ∈ take 1 ["a"; "env"; "b"]) as Hin
      by (apply H; repeat constructor).
    apply list_elem_of_singleton in Hin. discriminate.
  - split; [reflexivity|]. split; [reflexivity|].
    assert (touched (issued (fresh Add_second_put_fails)
              (Add sample_parser sample_ARN "v1" ["a"; "env"; "b"]
                 (fresh Add_second_put_fails)).2) = ["a"; "a"; "env"]) as ->
      by reflexivity.
    split; [reflexivity|]. intros H.
    assert ("env" ∈ take 1 ["a"; "env"; "b"]) as Hin
      by (apply H; repeat constructor).
    apply list_elem_of_singleton in Hin. discriminate.
Qed.

(** A closed instance: Add stops at the put of the
    second image of its second tag, Remove at its first delete. *)
Lemma partial_failure_boundary_witness :
  let s := fresh Add_second_put_fails in
  sample_parser sample_ARN = Ok ("app", "123456789012", "us-east-1")
  ∧ (∃ err pre tag post,
       (Add sample_parser sample_ARN "v1" ["a"; "env"; "b"] s).1 = Fail err
       ∧ ["a"; "env"; "b"] = pre ++ tag :: post)
  ∧ (∃ err pre tag post,
       (Remove sample_parser sample_ARN ["a"; "env"; "b"] s).1 = Fail err
       ∧ ["a"; "env"; "b"] = pre ++ tag :: post).
Proof.
  cbv zeta.
  destruct (partial_failure_boundary sample_parser sample_ARN "v1"
              ["a"; "env"; "b"] "app" "123456789012" "us-east-1"
              (fresh Add_second_put_fails) eq_refl) as [Ha Hr].
  split; [reflexivity|]. split.
  - destruct Ha as (err & pre & tag & post & segs & seg & counter & before & ev
                     & Hfail & Htags & _);
      [some_failed|]. by exists err, pre, tag, post.
  - destruct Hr as (err & pre & tag & post & segs & seg & counter & before & ev
                     & Hfail & Htags & _);
      [some_failed|]. by exists err, pre, tag, post.
Defined.

(** A closed instance: two images carry the version. *)
Lemma Get_more_than_one_image_witness :
  let s := fresh [describing [detail ["v1"]; detail ["v1"; "env"]]] in
  sample_parser sample_ARN = Ok ("app", "123456789012", "us-east-1")
  ∧ (Get sample_parser sample_ARN "v1" s).1
    = Fail (errors_New
        "More than one image with version tag was found ... bad state!")
  ∧ stats (Get sample_parser sample_ARN "v1" s).2 = stats s.
Proof.
  cbv zeta. split; [reflexivity|].
  destruct (Get_more_than_one_image (api := scripted) sample_parser sample_ARN "v1"
              "app" "123456789012" "us-east-1"
              {| DescribeImagesOutput.ImageDetails :=
                   [detail ["v1"]; detail ["v1"; "env"]] |} []
              (fresh [describing [detail ["v1"]; detail ["v1"; "env"]]])
              eq_refl ltac:(reflexivity) ltac:(cbn; lia))
    as (Hget & _ & _ & Hstats).
  rewrite Hget. split; [reflexivity | exact Hstats].
Defined.

(** A closed instance: a repeated tag and a lookup that
    finds no image. *)
Lemma Add_in_input_order_witness :
  let s := fresh Add_all_answered in
  let r := Add sample_parser sample_ARN "v1" ["env"; "qa"; "env"] s in
  sample_parser sample_ARN = Ok ("app", "123456789012", "us-east-1")
  ∧ Forall (λ ev, failed ev = false) (issued s r.2)
  ∧ r.1 = Return ()
  ∧ ∃ segs,
      Forall2 (Add_done (ecr_New "us-east-1") "app" "123456789012" "v1")
        ["env"; "qa"; "env"] segs
      ∧ issued s r.2 = concat segs.
Proof.
  cbv zeta.
  assert (Forall (λ ev, failed ev = false)
            (issued (fresh Add_all_answered)
               (Add sample_parser sample_ARN "v1" ["env"; "qa"; "env"]
                  (fresh Add_all_answered)).2)) as Hok by all_answered.
  split; [reflexivity|]. split; [exact Hok|].
  destruct (Add_in_input_order sample_parser sample_ARN "v1"
              ["env"; "qa"; "env"] "app" "123456789012" "us-east-1"
              (fresh Add_all_answered) eq_refl Hok) as (Hret & Hsegs & _).
  split; [exact Hret | exact Hsegs].
Defined.

(** A closed instance: the first tag is on two
    images. *)
Lemma Remove_deletes_each_binding_witness :
  let s := fresh Remove_all_answered in
  let r := Remove sample_parser sample_ARN ["env"; "qa"] s in
  sample_parser sample_ARN = Ok ("app", "123456789012", "us-east-1")
  ∧ Forall (λ ev, failed ev = false) (issued s r.2)
  ∧ r.1 = Return ()
  ∧ ∃ segs,
      Forall2 (Remove_done (ecr_New "us-east-1") "app" "123456789012")
        ["env"; "qa"] segs
      ∧ issued s r.2 = concat segs.
Proof.
  cbv zeta.
  assert (Forall (λ ev, failed ev = false)
            (issued (fresh Remove_all_answered)
               (Remove sample_parser sample_ARN ["env"; "qa"]
                  (fresh Remove_all_answered)).2)) as Hok by all_answered.
  split; [reflexivity|]. split; [exact Hok|].
  destruct (Remove_deletes_each_binding sample_parser sample_ARN
              ["env"; "qa"] "app" "123456789012" "us-east-1"
              (fresh Remove_all_answered) eq_refl Hok) as (Hret & Hsegs & _).
  split; [exact Hret | exact Hsegs].
Defined.

(** A closed instance. *)
Lemma malformed_reference_aborts_witness :
  let s := fresh Add_all_answered in
  sample_parser "app" = Err sample_parse_error
  ∧ Add sample_parser "app" "v1" ["env"] s
    = (Fail (errors_Wrap sample_parse_error "failed to read ECR repository ARN"), s)
  ∧ Remove sample_parser "app" ["env"] s
    = (Fail (errors_Wrap sample_parse_error "failed to read ECR repository ARN"), s)
  ∧ Get sample_parser "app" "v1" s
    = (Fail (errors_Wrap sample_parse_error "failed to read ECR repository ARN"), s).
Proof.
  cbv zeta. split; [reflexivity|].
  apply (malformed_reference_aborts sample_parser "app" "v1" ["env"]
           sample_parse_error (fresh Add_all_answered)).
  reflexivity.
Defined.

(** A closed instance. *)
Lemma empty_tag_list_is_noop_witness :
  let s := fresh Add_all_answered in
  sample_parser sample_ARN = Ok ("app", "123456789012", "us-east-1")
  ∧ Add sample_parser sample_ARN "v1" [] s = (Return (), s)
  ∧ Remove sample_parser sample_ARN [] s = (Return (), s).
Proof.
  cbv zeta. split; [reflexivity|].
  apply (empty_tag_list_is_noop sample_parser sample_ARN "v1"
           "app" "123456789012" "us-east-1" (fresh Add_all_answered)).
  reflexivity.
Defined.

(** A closed instance: the first remote call
    of each operation is refused. *)
Lemma remote_failure_counted_and_wrapped_witness :
  let s := fresh lookup_refused in
  let ra := Add sample_parser sample_ARN "v1" ["env"] s in
  let rr := Remove sample_parser sample_ARN ["env"] s in
  let rg := Get sample_parser sample_ARN "v1" s in
  sample_parser sample_ARN = Ok ("app", "123456789012", "us-east-1")
  ∧ (∃ e msg counter,
       ra.1 = Fail (errors_Wrap e msg)
       ∧ stats ra.2 = IncCount_table counter (stats s))
  ∧ (∃ e msg counter,
       rr.1 = Fail (errors_Wrap e msg)
       ∧ stats rr.2 = IncCount_table counter (stats s))
  ∧ (∃ e,
       rg.1 = Fail (errors_Wrap e "failed to get images of tag v1")
       ∧ stats rg.2 = IncCount_table "ecr.descimg.app.failure" (stats s)).
Proof.
  cbv zeta.
  destruct (remote_failure_counted_and_wrapped sample_parser sample_ARN "v1"
              ["env"] "app" "123456789012" "us-east-1" (fresh lookup_refused)
              eq_refl) as (Ha & Hr & Hg & _).
  split; [reflexivity|]. split; [|split].
  - destruct Ha as (tag & e & before & ev & msg & counter & _ & _ & _
                    & Hfail & Hstats & _); [some_failed|].
    by exists e, msg, counter.
  - destruct Hr as (tag & e & before & ev & msg & counter & _ & _ & _
                    & Hfail & Hstats & _); [some_failed|].
    by exists e, msg, counter.
  - destruct Hg as (e & _ & Hfail & Hstats); [some_failed|].
    by exists e.
Defined.

(** A closed instance: a refused
    reference, two images for one version, and runs whose calls are all
    answered. *)
Lemma counters_move_only_on_remote_failure_witness :
  let s := fresh Add_all_answered in
  let s2 := fresh [describing [detail ["v1"]; detail ["v1"; "env"]]] in
  stats (Add sample_parser "app" "v1" ["env"] s).2 = stats s
  ∧ stats (Get sample_parser sample_ARN "v1" s2).2 = stats s2
  ∧ stats (Add sample_parser sample_ARN "v1" ["env"; "qa"; "env"] s).2 = stats s.
Proof.
  cbv zeta. split; [|split].
  - destruct (counters_move_only_on_remote_failure sample_parser "app" "v1"
                ["env"] (fresh Add_all_answered)) as (Hparse & _).
    by destruct (Hparse sample_parse_error eq_refl) as (Ha & _).
  - destruct (counters_move_only_on_remote_failure (api := scripted)
                sample_parser sample_ARN "v1" ["env"]
                (fresh [describing [detail ["v1"]; detail ["v1"; "env"]]]))
      as (_ & Hmany & _).
    by destruct (Hmany "app" "123456789012" "us-east-1"
                   {| DescribeImagesOutput.ImageDetails :=
                        [detail ["v1"]; detail ["v1"; "env"]] |} []
                   eq_refl eq_refl ltac:(cbn; lia)) as (_ & Hstats).
  - destruct (counters_move_only_on_remote_failure sample_parser sample_ARN
                "v1" ["env"; "qa"; "env"] (fresh Add_all_answered))
      as (_ & _ & Ha & _).
    apply Ha. all_answered.
Defined.

(** A closed instance: the lookup of the second
    tag, env, is refused; the request was keyed by v1 and the error names
    env. *)
Lemma Add_lookup_keyed_by_version_witness :
  let s := fresh Add_second_lookup_fails in
  let r := Add sample_parser sample_ARN "v1" ["a"; "env"] s in
  sample_parser sample_ARN = Ok ("app", "123456789012", "us-east-1")
  ∧ last (issued s r.2)
    = Some (EvBatchGetImage (ecr_New "us-east-1")
              (Add_getReq "v1" "123456789012" "app") (Err throttled))
  ∧ ∃ pre tag post,
      ["a"; "env"] = pre ++ tag :: post
      ∧ lookups (issued s r.2) = S (length pre)
      ∧ r.1 = Fail (errors_Wrap throttled ("failed to get images of tag " +:+ tag)).
Proof.
  cbv zeta.
  destruct (Add_lookup_keyed_by_version sample_parser sample_ARN "v1"
              ["a"; "env"] "app" "123456789012" "us-east-1"
              (fresh Add_second_lookup_fails) eq_refl) as (_ & _ & Hlast).
  split; [reflexivity|]. split; [reflexivity|].
  apply (Hlast (ecr_New "us-east-1") (Add_getReq "v1" "123456789012" "app")).
  reflexivity.
Defined.

(** What the caller reads from the error of the instance above. *)
Example wrapped_lookup_error_text :
  Error (errors_Wrap throttled ("failed to get images of tag " +:+ "env"))
  = "failed to get images of tag env: ThrottlingException: Rate exceeded".
Proof. reflexivity. Qed.

(** Add prints the whole tag list once per iteration. *)
Example Add_prints_tags :
  stdout (Add sample_parser sample_ARN "v1" ["env"; "qa"; "env"]
            (fresh Add_all_answered)).2
  = replicate 3 ("Tags are [env qa env] " +:+ newline).
Proof. reflexivity. Qed.

(** Get on exactly one image returns its tags in the registry's order. *)
Example Get_one_image :
  (Get sample_parser sample_ARN "v1"
     (fresh [describing [detail ["v1"; "env"]]])).1
  = Return ["v1"; "env"].
Proof. reflexivity. Qed.

(** * Closed instances of the further properties *)

(** A nil tag pointer is read as the empty string. *)
Lemma Get_single_image_tags_witness :
  let s := fresh one_image_nil_tag in
  sample_parser sample_ARN = Ok ("app", "123456789012", "us-east-1")
  ∧ Get sample_parser sample_ARN "v1" s
    = (Return ["v1"; EmptyString; "env"],
       log_call
         (EvDescribeImages (ecr_New "us-east-1")
            (Get_getReq "v1" "123456789012" "app")
            (Ok {| DescribeImagesOutput.ImageDetails :=
                     [ {| ImageDetail.ImageTags := [Some "v1"; None; Some "env"] |} ] |}))
         [] s).
Proof.
  cbv zeta. split; [reflexivity|].
  apply (Get_single_image_tags (api := scripted) sample_parser sample_ARN "v1"
           "app" "123456789012" "us-east-1"
           {| DescribeImagesOutput.ImageDetails :=
                [ {| ImageDetail.ImageTags := [Some "v1"; None; Some "env"] |} ] |}
           [] {| ImageDetail.ImageTags := [Some "v1"; None; Some "env"] |}
           (fresh one_image_nil_tag) eq_refl eq_refl eq_refl).
Defined.

(** Get on two images for one version: one call, not a mutating one. *)
Lemma Get_is_read_only_witness :
  let s := fresh [describing [detail ["v1"]; detail ["v1"; "env"]]] in
  let r := Get sample_parser sample_ARN "v1" s in
  Forall (λ ev, mutating ev = false) (issued s r.2)
  ∧ remote r.2 = [].
Proof.
  cbv zeta.
  destruct (Get_is_read_only sample_parser sample_ARN "v1"
              (fresh [describing [detail ["v1"]; detail ["v1"; "env"]]]))
    as (Hro & _ & _ & Hcall).
  split; [exact Hro|].
  destruct (Hcall "app" "123456789012" "us-east-1" eq_refl) as (_ & Hremote & _).
  exact Hremote.
Defined.

(** Get panics on an answer without image detail. *)
Lemma Get_outcome_by_details_witness :
  ∃ msg, (Get sample_parser sample_ARN "v1" (fresh [describing []])).1 = Panic msg.
Proof.
  apply (proj2 (proj1 (Get_outcome_by_details (api := scripted) sample_parser
                         sample_ARN "v1" (fresh [describing []])))).
  exists "app", "123456789012", "us-east-1",
    {| DescribeImagesOutput.ImageDetails := [] |}, [].
  repeat split; reflexivity.
Defined.

(** Every call of a failing Add names the account and the repository. *)
Lemma requests_addressed_to_reference_witness :
  let s := fresh Add_second_put_fails in
  sample_parser sample_ARN = Ok ("app", "123456789012", "us-east-1")
  ∧ Forall (addressed_to (ecr_New "us-east-1") "123456789012" "app")
      (issued s (Add sample_parser sample_ARN "v1" ["a"; "env"; "b"] s).2)
  ∧ length (issued s (Add sample_parser sample_ARN "v1" ["a"; "env"; "b"] s).2) = 6.
Proof.
  cbv zeta. split; [reflexivity|]. split; [|reflexivity].
  apply (requests_addressed_to_reference sample_parser sample_ARN "v1"
           ["a"; "env"; "b"] "app" "123456789012" "us-east-1"
           (fresh Add_second_put_fails) eq_refl).
Defined.

(** A failing Remove only deletes, and only tags of its list. *)
Lemma only_listed_tags_are_mutated_witness :
  let s := fresh Remove_second_delete_fails in
  Forall (mutates_only is_delete ["a"; "env"; "b"])
    (issued s (Remove sample_parser sample_ARN ["a"; "env"; "b"] s).2)
  ∧ length (issued s (Remove sample_parser sample_ARN ["a"; "env"; "b"] s).2) = 5.
Proof.
  cbv zeta. split; [|reflexivity].
  apply (only_listed_tags_are_mutated sample_parser sample_ARN "v1"
           ["a"; "env"; "b"] (fresh Remove_second_delete_fails)).
Defined.

(** Three iterations, three lines. *)
Lemma Add_prints_once_per_lookup_witness :
  let s := fresh Add_all_answered in
  let r := Add sample_parser sample_ARN "v1" ["env"; "qa"; "env"] s in
  r.1 = Return ()
  ∧ lookups (issued s r.2) = 3
  ∧ stdout r.2 = stdout s ++ replicate (lookups (issued s r.2))
                               (Add_line ["env"; "qa"; "env"]).
Proof.
  cbv zeta.
  destruct (Add_prints_once_per_lookup sample_parser sample_ARN "v1"
              ["env"; "qa"; "env"] (fresh Add_all_answered))
    as (Hout & Hcount & _).
  split; [reflexivity|]. split; [exact (Hcount eq_refl) | exact Hout].
Defined.

(** Remove of two tags is Remove of the first, then of the second. *)
Lemma concatenated_tag_lists_witness :
  let s := fresh Remove_all_answered in
  Remove sample_parser sample_ARN (["env"] ++ ["qa"]) s
  = (Remove sample_parser sample_ARN ["env"] ;;
     Remove sample_parser sample_ARN ["qa"]) s
  ∧ (Remove sample_parser sample_ARN (["env"] ++ ["qa"]) s).1 = Return ().
Proof.
  cbv zeta. split; [|reflexivity].
  apply (concatenated_tag_lists sample_parser sample_ARN "v1" ["env"] ["qa"]
           (fresh Remove_all_answered)).
Defined.

(** One image per lookup: the third put, the third delete are refused. *)
Lemma exact_boundary_when_lookups_find_one_witness :
  let s := fresh Add_third_put_fails in
  let ra := Add sample_parser sample_ARN "v1" ["a"; "b"; "c"] s in
  let s0 := fresh Remove_third_delete_fails in
  let rr := Remove sample_parser sample_ARN ["a"; "b"; "c"] s0 in
  sample_parser sample_ARN = Ok ("app", "123456789012", "us-east-1")
  ∧ touched (issued s ra.2) = ["a"; "b"]
  ∧ touched (issued s0 rr.2) = ["a"]
  ∧ (∃ pre tag post,
       ["a"; "b"; "c"] = pre ++ tag :: post
       ∧ lookups (issued s ra.2) = S (length pre)
       ∧ sublist (touched (issued s ra.2)) pre)
  ∧ (∃ pre tag post,
       ["a"; "b"; "c"] = pre ++ tag :: post
       ∧ lookups (issued s0 rr.2) = S (length pre)
       ∧ sublist (touched (issued s0 rr.2)) pre).
Proof.
  cbv zeta. split; [reflexivity|]. split; [reflexivity|]. split; [reflexivity|].
  split.
  - apply (exact_boundary_when_lookups_find_one sample_parser sample_ARN "v1"
             ["a"; "b"; "c"] "app" "123456789012" "us-east-1"
             (fresh Add_third_put_fails) eq_refl); [some_failed | all_answered].
  - apply (exact_boundary_when_lookups_find_one sample_parser sample_ARN "v1"
             ["a"; "b"; "c"] "app" "123456789012" "us-east-1"
             (fresh Remove_third_delete_fails) eq_refl); [some_failed | all_answered].
Defined.

(** Two tags, one image each: four calls, both tags touched in order. *)
Lemma answered_run_touches_the_list_witness :
  let s := fresh Add_two_tags in
  let ra := Add sample_parser sample_ARN "v1" ["env"; "qa"] s in
  let s0 := fresh Remove_two_tags in
  let rr := Remove sample_parser sample_ARN ["env"; "qa"] s0 in
  sample_parser sample_ARN = Ok ("app", "123456789012", "us-east-1")
  ∧ (ra.1 = Return () ∧ touched (issued s ra.2) = ["env"; "qa"]
     ∧ length (issued s ra.2) = 2 * length ["env"; "qa"])
  ∧ (rr.1 = Return () ∧ touched (issued s0 rr.2) = ["env"; "qa"]
     ∧ length (issued s0 rr.2) = 2 * length ["env"; "qa"]).
Proof.
  cbv zeta. split; [reflexivity|]. split.
  - apply (answered_run_touches_the_list sample_parser sample_ARN "v1"
             ["env"; "qa"] "app" "123456789012" "us-east-1"
             (fresh Add_two_tags) eq_refl); all_answered.
  - apply (answered_run_touches_the_list sample_parser sample_ARN "v1"
             ["env"; "qa"] "app" "123456789012" "us-east-1"
             (fresh Remove_two_tags) eq_refl); all_answered.
Defined.
